(** * go-jira: the bitly link-annotation pipeline (bitly.go)

    A shallow embedding of [ExtendLinksWithBitly] and the functions it
    calls: [parseJiraLinks], [getBitlyLink], [getBitlyLinks] (the fan-out
    of one goroutine per (link, issue) pair and the fan-in loop over the
    channel) and [extendLinksWithBitlyUrls].

    - Go strings are byte strings: [string].
    - A Go [error] is [option string]; [None] is [nil].
    - A run-time panic is a value of [Panic]; a receive on a channel no
      goroutine will ever send on is [Blocked].
    - [interface{}] values are [Value]s; a Go map is a reference, so maps
      live in a [Store] and a [Value] holds their location.
    - The order in which the goroutines reach their send is chosen by a
      scheduler oracle, a [list nat]. *)

From stdpp Require Import gmap strings list fin_maps.
From Stdlib Require Import Permutation.

Set Warnings "-register-all".

Open Scope string_scope.

(** ** Outcomes of Go code *)

Inductive Panic :=
  | TypeAssertion          (* interface conversion: x.(T) on another dynamic type *)
  | IndexOutOfRange        (* s[i] with i >= len(s) *)
  | SliceBoundsOutOfRange  (* s[7:] with len(s) < 7 *)
  | NilMapAssignment       (* assignment to entry in nil map *)
  | Explicit (msg : string). (* panic(msg) *)

Inductive Outcome (A : Type) :=
  | Returned (a : A)
  | Panicked (p : Panic)
  | Blocked.
Arguments Returned {A} a.
Arguments Panicked {A} p.
Arguments Blocked {A}.

Definition error := option string.

(** ** Strings *)

(** [s[n:]]: [None] is the slice-bounds panic. *)
Fixpoint slice_from (s : string) (n : nat) {struct n} : option string :=
  match n with
  | O => Some s
  | S n' => match s with
            | EmptyString => None
            | String _ s' => slice_from s' n'
            end
  end.

(** [strings.Replace(s, old, new, -1)] for a non-empty [old]: the
    occurrences of [old] are replaced from left to right, without overlap.
    [skip] counts the bytes of an occurrence still to be passed over. *)
Fixpoint Replace_from (skip : nat) (s old new : string) : string :=
  match s with
  | EmptyString => EmptyString
  | String c s' =>
      match skip with
      | S k => Replace_from k s' old new
      | O => if String.prefix old s
             then new ++ Replace_from (String.length old - 1) s' old new
             else String c (Replace_from 0 s' old new)
      end
  end.

Definition Replace (s old new : string) : string := Replace_from 0 s old new.

(** ** The data of bitly.go *)

(** Modelled from the spec: [bitly.Link] is declared in the go-bitly
    package, which is not part of the sources. The code reads and writes
    its [URL] field only (the spec's [shortURL]); the remaining fields of
    the struct are kept, by name, in [fields]. *)
Record Link := mkLink {
  URL : string;
  fields : list (string * string)
}.

(** The zero value [bitly.Link{}]. *)
Definition zeroLink : Link := mkLink EmptyString [].

Definition set_URL (l : Link) (u : string) : Link := mkLink u (fields l).

Record OutputLinkMap := mkOutputLinkMap {
  JiraLink : Link;
  StashLink : Link
}.

Definition zeroOutputLinkMap : OutputLinkMap := mkOutputLinkMap zeroLink zeroLink.

Record InputLinkMap := mkInputLinkMap {
  name : string;
  url : string;
  urlTemplate : string
}.

Record BitlyLink := mkBitlyLink {
  index : nat;
  bname : string;   (* the field [name] of BitlyLink *)
  link : Link
}.

(** [*bitly.Client]: the code calls [b.Links.Shorten(url)] only. [None]
    is a call that never returns; otherwise the call returns a link and
    an error. *)
Record Client := mkClient {
  Shorten : string -> option (Link * error)
}.

#[global] Instance Link_eq_dec : EqDecision Link.
Proof. solve_decision. Defined.
#[global] Instance OutputLinkMap_eq_dec : EqDecision OutputLinkMap.
Proof. solve_decision. Defined.
#[global] Instance BitlyLink_eq_dec : EqDecision BitlyLink.
Proof. solve_decision. Defined.
#[global] Instance Panic_eq_dec : EqDecision Panic.
Proof. solve_decision. Defined.

(** ** getBitlyLink *)

Definition getBitlyLink (b : Client) (l : InputLinkMap) : option (BitlyLink * error) :=
  match Shorten b (url l) with
  | Some (shortened, err) => Some (mkBitlyLink 0 (name l) shortened, err)
  | None => None
  end.

(** ** getBitlyLinks: the goroutines *)

(** The body of the goroutine started for [(i, name, link)]. The result
    is the value it sends on the channel; [None] when the call to the
    service never returns, so that nothing is sent. The error of
    [getBitlyLink] is assigned to the blank identifier. *)
Definition worker (b : Client) (i : nat) (issueName : string) (l : InputLinkMap)
  : option BitlyLink :=
  let l := mkInputLinkMap (name l)
             (Replace (urlTemplate l) "${issueName}" issueName) (urlTemplate l) in
  match getBitlyLink b l with
  | Some (bitlyLink, _) => Some (mkBitlyLink i (bname bitlyLink) (link bitlyLink))
  | None => None
  end.

(** The goroutines in the order the two nested [range] loops start them. *)
Definition spawned (jiraIssueList : list string) (linkList : list InputLinkMap)
  : list (nat * string * InputLinkMap) :=
  l ← linkList; imap (fun i issueName => (i, issueName, l)) jiraIssueList.

(** The values that are sent on the channel, by goroutine. *)
Definition sent (b : Client) (jiraIssueList : list string) (linkList : list InputLinkMap)
  : list BitlyLink :=
  omap (fun g => worker b g.1.1 g.1.2 g.2) (spawned jiraIssueList linkList).

(** The channel delivers the sends in the order the scheduler lets the
    goroutines reach them: at each step the oracle's next number picks
    one of the sends still pending. The buffer of [numKeys] values only
    decides how long a sender waits, not what is received. *)
Fixpoint arrivals_aux {A} (n : nat) (sched : list nat) (pending : list A) : list A :=
  match n with
  | O => []
  | S n' =>
      let k := hd 0 sched `mod` length pending in
      match pending !! k with
      | Some m => m :: arrivals_aux n' (tl sched) (delete k pending)
      | None => []
      end
  end.

Definition arrivals {A} (sched : list nat) (pending : list A) : list A :=
  arrivals_aux (length pending) sched pending.

(** ** getBitlyLinks: the loop over the channel *)

(** One iteration, after the receive of [bitlyLink]. *)
Definition merge (bitlyLink : BitlyLink) (out : list OutputLinkMap)
  : Panic + list OutputLinkMap :=
  match out !! index bitlyLink with
  | None => inl IndexOutOfRange
  | Some current =>
      if String.eqb (bname bitlyLink) "jira" then
        let current := mkOutputLinkMap (link bitlyLink) (StashLink current) in
        match slice_from (URL (JiraLink current)) 7 with
        | None => inl SliceBoundsOutOfRange
        | Some u =>
            inr (<[index bitlyLink :=
                     mkOutputLinkMap (set_URL (JiraLink current) u) (StashLink current)]> out)
        end
      else if String.eqb (bname bitlyLink) "stash" then
        let current := mkOutputLinkMap (JiraLink current) (link bitlyLink) in
        match slice_from (URL (StashLink current)) 7 with
        | None => inl SliceBoundsOutOfRange
        | Some u =>
            inr (<[index bitlyLink :=
                     mkOutputLinkMap (JiraLink current) (set_URL (StashLink current) u)]> out)
        end
      else inl (Explicit "bad bitlyLink name")
  end.

(** [for i := 0; i < n; i++ { bitlyLink := <-channel; ... }], with the
    number of receives that returned. *)
Fixpoint aggregate (n : nat) (channel : list BitlyLink) (out : list OutputLinkMap)
  : Outcome (list OutputLinkMap) * nat :=
  match n with
  | O => (Returned out, 0)
  | S n' =>
      match channel with
      | [] => (Blocked, 0)
      | bitlyLink :: channel' =>
          match merge bitlyLink out with
          | inl p => (Panicked p, 1)
          | inr out' =>
              let r := aggregate n' channel' out' in (r.1, S r.2)
          end
      end
  end.

(** [getBitlyLinks], with the number of results received from the channel. *)
Definition getBitlyLinks_received (b : Client) (jiraIssueList : list string)
    (linkList : list InputLinkMap) (sched : list nat)
  : Outcome (list OutputLinkMap * error) * nat :=
  let numLinks := length linkList in
  let numKeys := length jiraIssueList in
  let out := replicate numKeys zeroOutputLinkMap in
  let channel := arrivals sched (sent b jiraIssueList linkList) in
  match aggregate (numKeys * numLinks) channel out with
  | (Returned out, k) => (Returned (out, None), k)
  | (Panicked p, k) => (Panicked p, k)
  | (Blocked, k) => (Blocked, k)
  end.

Definition getBitlyLinks (b : Client) (jiraIssueList : list string)
    (linkList : list InputLinkMap) (sched : list nat)
  : Outcome (list OutputLinkMap * error) :=
  (getBitlyLinks_received b jiraIssueList linkList sched).1.

(** ** interface{} values and the store of maps *)

Definition loc := positive.

(** The dynamic types [data] can hold. A [map[string]interface{}] is a
    reference: [VMap r] points into the store. [VBool] stands for the
    dynamic types no type assertion of this file accepts. *)
Inductive Value :=
  | VNil
  | VBool (b : bool)
  | VString (s : string)
  | VSlice (l : list Value)          (* []interface{} *)
  | VMap (r : loc)                   (* map[string]interface{} *)
  | VOutputLinkMap (o : OutputLinkMap).

(** The maps that are allocated. A location without an entry is the nil
    map: reading it gives the zero value, writing it panics. *)
Abbreviation Store := (gmap loc (gmap string Value)).

(** [m[k]] as an expression: the zero value [nil] for a missing key. *)
Definition map_index (st : Store) (r : loc) (k : string) : Value :=
  match st !! r with
  | Some m => default VNil (m !! k)
  | None => VNil
  end.

(** [m[k] = v]. *)
Definition map_assign (st : Store) (r : loc) (k : string) (v : Value) : Panic + Store :=
  match st !! r with
  | Some m => inr (<[r := <[k := v]> m]> st)
  | None => inl NilMapAssignment
  end.

(** The type assertions [x.(map[string]interface{})],
    [x.([]interface{})] and [x.(string)]. *)
Definition assert_map (v : Value) : Panic + loc :=
  match v with VMap r => inr r | _ => inl TypeAssertion end.
Definition assert_slice (v : Value) : Panic + list Value :=
  match v with VSlice l => inr l | _ => inl TypeAssertion end.
Definition assert_string (v : Value) : Panic + string :=
  match v with VString s => inr s | _ => inl TypeAssertion end.

(** Sequencing of code that may panic. *)
Definition bindP {A B} (x : Panic + A) (f : A -> Panic + B) : Panic + B :=
  match x with inl p => inl p | inr a => f a end.
Notation "'try' x := c1 'in' c2" := (bindP c1 (fun x => c2))
  (at level 10, x name, c1 at level 100, c2 at level 200).

(** ** parseJiraLinks *)

Fixpoint parseJiraLinks_loop (st : Store) (issues : list Value) (out : list string)
  : Panic + list string :=
  match issues with
  | [] => inr out
  | v :: issues' =>
      try issue := assert_map v in
      try issueName := assert_string (map_index st issue "key") in
      parseJiraLinks_loop st issues' (out ++ [issueName])%list
  end.

Definition parseJiraLinks (st : Store) (data : Value) : Panic + list string :=
  try dat := assert_map data in
  try issues := assert_slice (map_index st dat "issues") in
  parseJiraLinks_loop st issues [].

(** ** extendLinksWithBitlyUrls *)

(** The [range] loop from position [i] on. The store is threaded through:
    an assignment that happened before a panic stays. The right-hand side
    [bitlyLinkList[i]] is evaluated before the map is assigned. *)
Fixpoint extendLinks_loop (st : Store) (i : nat) (issues : list Value)
    (bitlyLinkList : list OutputLinkMap) : Store * option Panic :=
  match issues with
  | [] => (st, None)
  | v :: issues' =>
      match assert_map v with
      | inl p => (st, Some p)
      | inr issue =>
          match bitlyLinkList !! i with
          | None => (st, Some IndexOutOfRange)
          | Some o =>
              match map_assign st issue "bitlyLink" (VOutputLinkMap o) with
              | inl p => (st, Some p)
              | inr st' => extendLinks_loop st' (S i) issues' bitlyLinkList
              end
          end
      end
  end.

Definition extendLinksWithBitlyUrls (st : Store) (data : Value)
    (bitlyLinkList : list OutputLinkMap) : Store * Outcome Value :=
  match (try dat := assert_map data in assert_slice (map_index st dat "issues")) with
  | inl p => (st, Panicked p)
  | inr issues =>
      match extendLinks_loop st 0 issues bitlyLinkList with
      | (st', Some p) => (st', Panicked p)
      | (st', None) => (st', Returned data)
      end
  end.

(** ** ExtendLinksWithBitly *)

Definition jiraLink : InputLinkMap :=
  mkInputLinkMap "jira" EmptyString "https://jira.cfops.it/browse/${issueName}".
Definition stashLink : InputLinkMap :=
  mkInputLinkMap "stash" EmptyString
    "https://stash.cfops.it/projects/APPS/repos/app/browse?at=refs%2Fheads%2F${issueName}".
Definition linksToExtend : list InputLinkMap := [jiraLink; stashLink].

(** The result is the store after the call and what the call did. The
    receiver [c] is not used by the method. *)
Definition ExtendLinksWithBitly (b : Client) (st : Store) (data : Value) (sched : list nat)
  : Store * Outcome (Value * error) :=
  match parseJiraLinks st data with
  | inl p => (st, Panicked p)
  | inr jiraIssueKeyList =>
      match getBitlyLinks b jiraIssueKeyList linksToExtend sched with
      | Panicked p => (st, Panicked p)
      | Blocked => (st, Blocked)
      | Returned (bitlyLinkList, err) =>
          match extendLinksWithBitlyUrls st data bitlyLinkList with
          | (st', Returned extendedDataList) => (st', Returned (extendedDataList, err))
          | (st', Panicked p) => (st', Panicked p)
          | (st', Blocked) => (st', Blocked)
          end
      end
  end.

(** ** Concrete inputs used in the examples *)

Module Ex.

(** A service that answers every call with [http://bit.ly/<long url>]. *)
Definition ok : Client :=
  mkClient (fun u => Some (mkLink ("http://bit.ly/" ++ u) [("long_url", u)], None)).

(** A service whose every call fails: the zero link and an error. *)
Definition failing : Client :=
  mkClient (fun _ => Some (zeroLink, Some "500 Internal Server Error")).

(** A service that succeeds with the zero link. *)
Definition empty_ok : Client :=
  mkClient (fun _ => Some (zeroLink, None)).

(** A service that never answers for the issue AB-2 on jira. *)
Definition silent : Client :=
  mkClient (fun u => if String.eqb u "https://jira.cfops.it/browse/AB-2" then None
                     else Shorten ok u).

(** A service that fails for the issue AB-2 on jira only. *)
Definition failing_once : Client :=
  mkClient (fun u => if String.eqb u "https://jira.cfops.it/browse/AB-2"
                     then Shorten failing u else Shorten ok u).

(** [{"issues": [{"key": "AB-1"}, {"key": "AB-2"}]}] *)
Definition st : Store :=
  {[ 1%positive := {[ "issues" := VSlice [VMap 2%positive; VMap 3%positive] ]};
     2%positive := {[ "key" := VString "AB-1" ]};
     3%positive := {[ "key" := VString "AB-2" ]} ]}.
Definition data : Value := VMap 1%positive.

(** [{"issues": [{"key": "AB-1"}]}] *)
Definition st1 : Store :=
  {[ 1%positive := {[ "issues" := VSlice [VMap 2%positive] ]};
     2%positive := {[ "key" := VString "AB-1" ]} ]}.

Definition fooLink : InputLinkMap := mkInputLinkMap "foo" EmptyString "https://foo/${issueName}".

(** Two links under the same name. *)
Definition twice : list InputLinkMap :=
  [mkInputLinkMap "jira" EmptyString "https://a/${issueName}";
   mkInputLinkMap "jira" EmptyString "https://b/${issueName}"].

(** A filled slot of a result table. *)
Definition slot_ab : OutputLinkMap :=
  mkOutputLinkMap (mkLink "bit.ly/a" []) (mkLink "bit.ly/b" []).

End Ex.

(** ** main.go: options and the command line *)

(** The values of [opts], a [map[string]interface{}]: flags are bools,
    [=s] options strings, [=i] options ints; [OOther] is any other
    dynamic type a configuration file can give, by its rendering. *)
Inductive OptVal :=
  | OBool (b : bool)
  | OString (s : string)
  | OInt (n : Z)
  | OOther (repr : string).

#[global] Instance OptVal_eq_dec : EqDecision OptVal.
Proof. solve_decision. Defined.

Abbreviation Opts := (gmap string OptVal).

(** The table [jiraCommands] of [main]. *)
Definition jiraCommands : gmap string string :=
  list_to_map [
    ("list", "list"); ("ls", "list"); ("view", "view"); ("edit", "edit");
    ("create", "create"); ("subtask", "subtask"); ("dups", "dups");
    ("blocks", "blocks"); ("issuelink", "issuelink"); ("watch", "watch");
    ("trans", "transition"); ("transition", "transition");
    ("ack", "acknowledge"); ("acknowledge", "acknowledge");
    ("close", "close"); ("resolve", "resolve"); ("reopen", "reopen");
    ("start", "start"); ("stop", "stop"); ("todo", "todo");
    ("backlog", "backlog"); ("done", "done"); ("prog", "in-progress");
    ("progress", "in-progress"); ("in-progress", "in-progress");
    ("comment", "comment"); ("label", "labels"); ("labels", "labels");
    ("component", "component"); ("components", "components");
    ("take", "take"); ("assign", "assign"); ("give", "assign");
    ("fields", "fields"); ("issuelinktypes", "issuelinktypes");
    ("transmeta", "transmeta"); ("editmeta", "editmeta");
    ("issuetypes", "issuetypes"); ("createmeta", "createmeta");
    ("transitions", "transitions"); ("export-templates", "export-templates");
    ("browse", "browse"); ("pullrequest", "pullrequest");
    ("pr", "pullrequest"); ("repo", "repository");
    ("repository", "repository"); ("login", "login"); ("logout", "logout");
    ("req", "request"); ("request", "request"); ("vote", "vote");
    ("rank", "rank"); ("worklog", "worklog"); ("addworklog", "addworklog");
    ("unassign", "unassign") ].

(** The command word: the first argument if it is a command name, else
    the second (for [jira DUPLICATE dups ISSUE]); the word is taken out of
    the arguments. *)
Definition lookupCommand (args : list string) : string * list string :=
  match args with
  | [] => (EmptyString, args)
  | a0 :: rest =>
      match jiraCommands !! a0 with
      | Some alias => (alias, rest)                       (* args = args[1:] *)
      | None =>
          match rest with
          | a1 :: rest' =>                                 (* len(args) > 1 *)
              match jiraCommands !! a1 with
              | Some alias => (alias, a0 :: rest')        (* append(args[:1], args[2:]...) *)
              | None => (EmptyString, args)
              end
          | [] => (EmptyString, args)
          end
      end
  end.

(** [if command == "" && len(args) > 0 { command = args[0]; args = args[1:] }] *)
Definition shiftCommand (ca : string * list string) : string * list string :=
  match ca.2 with
  | a0 :: rest => if String.eqb ca.1 EmptyString then (a0, rest) else ca
  | [] => ca
  end.

(** After [loadConfigs]: a command set in the options wins; a command
    that is no command name goes back in front of the arguments and the
    command is [view]. *)
Definition defaultCommand (opts : Opts) (ca : string * list string)
  : string * list string :=
  match opts !! "command" with
  | Some (OString value) => (value, ca.2)
  | _ =>
      if negb (bool_decide (is_Some (jiraCommands !! ca.1))) || String.eqb ca.1 EmptyString
      then ("view", if negb (String.eqb ca.1 EmptyString) then ca.1 :: ca.2 else ca.2)
      else ca
  end.

(** The command and the arguments [main] dispatches on, from the
    arguments left by the option parser and the options after
    [loadConfigs]. *)
Definition resolveCommand (opts : Opts) (args : list string) : string * list string :=
  defaultCommand opts (shiftCommand (lookupCommand args)).

(** The closure [setEditing] of [main], on [opts]. *)
Definition setEditing (dflt : bool) (opts : Opts) : Opts :=
  if dflt then
    match opts !! "noedit" with
    | Some (OBool true) => <["edit" := OBool false]> opts
    | _ => <["edit" := OBool true]> opts
    end
  else
    match opts !! "edit" with
    | Some (OBool _) => opts
    | _ => <["edit" := OBool dflt]> opts
    end.

(** ** main.go: the switch on the command *)

(** What a case of the switch asks of the client [c]. [Cmd] is a call of
    the method of that name on strings; the other calls take what is
    shown. [EditFound] is the loop over the issues [FindIssues] returns
    and [Dups] the case [dups] from [CmdDups] on (see [editFound] and
    [dupsCase]). *)
Inductive Call :=
  | Cmd (method : string) (strings : list string)
  | CmdWatch (issue : string) (user : string)
      (* watcher := c.GetOptString("watcher", user); remove := c.GetOptBool("remove", false) *)
  | CmdLabels (action issue : string) (labels : list string)
  | CmdVote (issue : string) (up : bool)
  | EditFound
  | Dups (duplicate issue : string).

(** How the switch ends: a call with the options as they are then;
    [usage(false)], which exits with status 1; the [default] case, which
    exits with status 1; or a panic. *)
Inductive Dispatch :=
  | Run (opts : Opts) (call : Call)
  | UsageExit
  | UnknownCommand
  | Panics (p : Panic).

(** The closure [requireArgs]. *)
Definition requireArgs (count : nat) (args : list string) (k : Dispatch) : Dispatch :=
  if (length args <? count)%nat then UsageExit else k.

(** [args[i]] *)
Definition arg (args : list string) (i : nat) (k : string -> Dispatch) : Dispatch :=
  match args !! i with
  | Some a => k a
  | None => Panics IndexOutOfRange
  end.

(** [opts[name].(string)] *)
Definition optString (opts : Opts) (nm : string) (k : string -> Dispatch) : Dispatch :=
  match opts !! nm with
  | Some (OString s) => k s
  | _ => Panics TypeAssertion
  end.

(** The cases [close], [acknowledge], ...: [requireArgs(1)],
    [setEditing(false)], [c.CmdTransition(args[0], trans)]. *)
Definition transitionCase (opts : Opts) (args : list string) (trans : string) : Dispatch :=
  requireArgs 1 args
    (arg args 0 (fun a0 => Run (setEditing false opts) (Cmd "CmdTransition" [a0; trans]))).

(** [requireArgs(1)] and a call of [method] on [args[0]]. *)
Definition oneArgCase (opts : Opts) (args : list string) (method : string) : Dispatch :=
  requireArgs 1 args (arg args 0 (fun a0 => Run opts (Cmd method [a0]))).

Definition dispatch (opts : Opts) (command : string) (args : list string) : Dispatch :=
  if String.eqb command "issuelink" then
    requireArgs 3 args
      (arg args 0 (fun a0 => arg args 1 (fun a1 => arg args 2 (fun a2 =>
         Run opts (Cmd "CmdIssueLink" [a0; a1; a2])))))
  else if String.eqb command "login" then Run opts (Cmd "CmdLogin" [])
  else if String.eqb command "logout" then Run opts (Cmd "CmdLogout" [])
  else if String.eqb command "fields" then Run opts (Cmd "CmdFields" [])
  else if String.eqb command "list" then Run opts (Cmd "CmdList" [])
  else if String.eqb command "edit" then
    if (0 <? length args)%nat
    then arg args 0 (fun a0 => Run (setEditing true opts) (Cmd "CmdEdit" [a0]))
    else Run (setEditing true opts) EditFound
  else if String.eqb command "editmeta" then oneArgCase opts args "CmdEditMeta"
  else if String.eqb command "transmeta" then oneArgCase opts args "CmdTransitionMeta"
  else if String.eqb command "issuelinktypes" then Run opts (Cmd "CmdIssueLinkTypes" [])
  else if String.eqb command "issuetypes" then Run opts (Cmd "CmdIssueTypes" [])
  else if String.eqb command "createmeta" then Run opts (Cmd "CmdCreateMeta" [])
  else if String.eqb command "create" then Run (setEditing true opts) (Cmd "CmdCreate" [])
  else if String.eqb command "subtask" then
    arg args 0 (fun a0 => Run (setEditing true opts) (Cmd "CmdSubtask" [a0]))
  else if String.eqb command "transitions" then oneArgCase opts args "CmdTransitions"
  else if String.eqb command "blocks" then
    requireArgs 2 args
      (arg args 0 (fun a0 => arg args 1 (fun a1 => Run opts (Cmd "CmdBlocks" [a0; a1]))))
  else if String.eqb command "dups" then
    requireArgs 2 args
      (arg args 0 (fun a0 => arg args 1 (fun a1 =>
         Run (setEditing true opts) (Dups a0 a1))))
  else if String.eqb command "watch" then
    requireArgs 1 args
      (optString opts "user" (fun user => arg args 0 (fun a0 =>
         Run opts (CmdWatch a0 user))))
  else if String.eqb command "transition" then
    requireArgs 2 args
      (arg args 1 (fun a1 => arg args 0 (fun a0 =>
         Run (setEditing true opts) (Cmd "CmdTransition" [a1; a0]))))
  else if String.eqb command "close" then transitionCase opts args "close"
  else if String.eqb command "acknowledge" then transitionCase opts args "acknowledge"
  else if String.eqb command "reopen" then transitionCase opts args "reopen"
  else if String.eqb command "resolve" then transitionCase opts args "resolve"
  else if String.eqb command "start" then transitionCase opts args "start"
  else if String.eqb command "stop" then transitionCase opts args "stop"
  else if String.eqb command "todo" then transitionCase opts args "To Do"
  else if String.eqb command "backlog" then transitionCase opts args "Backlog"
  else if String.eqb command "done" then transitionCase opts args "Done"
  else if String.eqb command "in-progress" then transitionCase opts args "Progress"
  else if String.eqb command "comment" then
    requireArgs 1 args
      (arg args 0 (fun a0 => Run (setEditing true opts) (Cmd "CmdComment" [a0])))
  else if String.eqb command "labels" then
    requireArgs 2 args
      (arg args 0 (fun action => arg args 1 (fun issue =>
         if (length args <? 2)%nat then Panics SliceBoundsOutOfRange
         else Run opts (CmdLabels action issue (drop 2 args)))))
  else if String.eqb command "component" then
    requireArgs 2 args
      (arg args 0 (fun action => optString opts "project" (fun project =>
       arg args 1 (fun nm =>
         let description k :=
           if (2 <? length args)%nat then arg args 2 k else k EmptyString in
         let lead k :=
           if (3 <? length args)%nat then arg args 2 k else k EmptyString in
         description (fun d => lead (fun l =>
           Run opts (Cmd "CmdComponent" [action; project; nm; d; l])))))))
  else if String.eqb command "components" then
    optString opts "project" (fun project => Run opts (Cmd "CmdComponents" [project]))
  else if String.eqb command "take" then
    requireArgs 1 args
      (arg args 0 (fun a0 => optString opts "user" (fun user =>
         Run opts (Cmd "CmdAssign" [a0; user]))))
  else if String.eqb command "browse" then
    requireArgs 1 args
      (arg args 0 (fun a0 => Run (<["browse" := OBool true]> opts) (Cmd "Browse" [a0])))
  else if String.eqb command "pullrequest" then
    requireArgs 1 args
      (arg args 0 (fun a0 =>
         Run (<["pullrequest" := OBool true]> opts) (Cmd "BrowsePullRequest" [a0])))
  else if String.eqb command "repository" then
    requireArgs 1 args
      (arg args 0 (fun a0 =>
         Run (<["repository" := OBool true]> opts) (Cmd "BrowseRepository" [a0])))
  else if String.eqb command "export-templates" then
    Run opts (Cmd "CmdExportTemplates" [])
  else if String.eqb command "assign" then
    requireArgs 1 args
      (let assignee k := if (1 <? length args)%nat then arg args 1 k else k EmptyString in
       assignee (fun a => arg args 0 (fun a0 => Run opts (Cmd "CmdAssign" [a0; a]))))
  else if String.eqb command "unassign" then oneArgCase opts args "CmdUnassign"
  else if String.eqb command "view" then oneArgCase opts args "CmdView"
  else if String.eqb command "worklog" then
    if (0 <? length args)%nat && String.eqb (default EmptyString (args !! 0)) "add" then
      requireArgs 2 args
        (arg args 0 (fun a0 => arg args 1 (fun a1 =>
           Run (setEditing true opts) (Cmd "CmdWorklog" [a0; a1]))))
    else oneArgCase opts args "CmdWorklogs"
  else if String.eqb command "vote" then
    requireArgs 1 args
      (match opts !! "down" with
       | Some val =>
           arg args 0 (fun a0 =>
             match val with
             | OBool b => Run opts (CmdVote a0 (negb b))
             | _ => Panics TypeAssertion
             end)
       | None => arg args 0 (fun a0 => Run opts (CmdVote a0 true))
       end)
  else if String.eqb command "rank" then
    requireArgs 3 args
      (arg args 1 (fun a1 =>
         if String.eqb a1 "after"
         then arg args 0 (fun a0 => arg args 2 (fun a2 =>
                Run opts (Cmd "CmdRankAfter" [a0; a2])))
         else arg args 0 (fun a0 => arg args 2 (fun a2 =>
                Run opts (Cmd "CmdRankBefore" [a0; a2])))))
  else if String.eqb command "request" then
    requireArgs 1 args
      (let data k := if (1 <? length args)%nat then arg args 1 k else k EmptyString in
       data (fun d => arg args 0 (fun a0 => Run opts (Cmd "CmdRequest" [a0; d]))))
  else UnknownCommand.

(** ** main.go: the cases that call the client more than once *)

(** The errors the client's methods return: one of type
    [jira.NoChangesFound], or any other. *)
Inductive CmdError :=
  | NoChangesFound (msg : string)
  | OtherError (msg : string).



(** The case [dups] from [CmdDups] on. [T] is the type of the list
    [ValidTransitions] returns and [find trans name] is
    [trans.Find(name) != nil]. The result is the world, the options and
    the value of the [err] of [main]: the [err] that [:=] declares with
    [trans] inside the block is another variable. *)
Definition dupsCase {W T : Type}
    (cmdDups : W -> Opts -> string -> string -> W * option CmdError)
    (validTransitions : W -> Opts -> string -> W * (T * option CmdError))
    (find : T -> string -> bool)
    (cmdTransition : W -> Opts -> string -> string -> W * option CmdError)
    (opts : Opts) (a0 a1 : string) (w : W) : W * Opts * option CmdError :=
  match cmdDups w opts a0 a1 with
  | (w1, Some e) => (w1, opts, Some e)
  | (w1, None) =>
      let opts := <["resolution" := OString "Duplicate"]> opts in
      match validTransitions w1 opts a0 with
      | (w2, (_, Some _)) => (w2, opts, None)
      | (w2, (trans, None)) =>
          if find trans "close" then
            ((cmdTransition w2 opts a0 "close").1, opts, None)
          else if find trans "done" then
            ((cmdTransition w2 opts a0 "done").1, opts, None)
          else if find trans "start" then
            match cmdTransition w2 opts a0 "start" with
            | (w3, None) => ((cmdTransition w3 opts a0 "stop").1, opts, None)
            | (w3, Some _) => (w3, opts, None)
            end
          else (w2, opts, None)
      end
  end.

(** The end of [main]: [os.Exit(1)] on an error, [os.Exit(0)] otherwise. *)
Definition exitStatus (err : option CmdError) : nat :=
  match err with Some _ => 1 | None => 0 end.

(** ** main.go: loadConfigs *)

(** [for k, v := range tmp { if _, ok := opts[k]; !ok { opts[k] = v } }] *)
Definition mergeMissing (tmp opts : Opts) : Opts :=
  map_fold (fun k v opts => match opts !! k with
                            | Some _ => opts
                            | None => <[k := v]> opts
                            end) opts tmp.

(** What [loadConfigs] finds at a path: nothing ([os.Stat] fails); a
    file that is not executable, with the map [parseYaml] leaves in [tmp]
    (empty when the file cannot be read); or an executable, whose run is
    given the environment made from the options and either fails or
    prints what is decoded into [tmp]. *)
Inductive ConfigFile :=
  | NoFile
  | PlainFile (tmp : Opts)
  | ExecFile (run : Opts -> option Opts).

(** The loop of [loadConfigs] over the files at [paths], in the order of
    the loop; [None] is [os.Exit(1)]. *)
Fixpoint loadConfigs (files : list ConfigFile) (opts : Opts) : option Opts :=
  match files with
  | [] => Some opts
  | NoFile :: files' => loadConfigs files' opts
  | PlainFile tmp :: files' => loadConfigs files' (mergeMissing tmp opts)
  | ExecFile run :: files' =>
      match run opts with
      | None => None
      | Some tmp => loadConfigs files' (mergeMissing tmp opts)
      end
  end.

(** ** Vocabulary of the statements *)

(** The two fields of [OutputLinkMap], and the field the loop routes a
    name to. *)
Inductive Field := FJira | FStash.

#[global] Instance Field_eq_dec : EqDecision Field.
Proof. solve_decision. Defined.

Definition field_of (nm : string) : option Field :=
  if String.eqb nm "jira" then Some FJira
  else if String.eqb nm "stash" then Some FStash
  else None.

Definition get_field (f : Field) (o : OutputLinkMap) : Link :=
  match f with FJira => JiraLink o | FStash => StashLink o end.

Definition set_field (f : Field) (o : OutputLinkMap) (l : Link) : OutputLinkMap :=
  match f with
  | FJira => mkOutputLinkMap l (StashLink o)
  | FStash => mkOutputLinkMap (JiraLink o) l
  end.

(** [l] with [l.URL = l.URL[7:]]. *)
Definition stripped (l : Link) : option Link :=
  match slice_from (URL l) 7 with
  | Some u => Some (set_URL l u)
  | None => None
  end.

(** The panic of the iteration that merges [m] into a slot that exists. *)
Definition panic_of (m : BitlyLink) : option Panic :=
  match field_of (bname m) with
  | None => Some (Explicit "bad bitlyLink name")
  | Some _ =>
      match stripped (link m) with
      | None => Some SliceBoundsOutOfRange
      | Some _ => None
      end
  end.

(** The long URL of issue [issueName] for the link [l]. *)
Definition long_url (l : InputLinkMap) (issueName : string) : string :=
  Replace (urlTemplate l) "${issueName}" issueName.

(** The last result in [channel] for slot [i] and field [f]. *)
Definition for_slot (i : nat) (f : Field) (m : BitlyLink) : bool :=
  bool_decide (index m = i) && bool_decide (field_of (bname m) = Some f).

Definition last_for (i : nat) (f : Field) (channel : list BitlyLink) : option BitlyLink :=
  last (filter (fun m => for_slot i f m = true) channel).

(** [lk] is what the loop stores for a result computed from the
    identifier at position [i] and a link named [nm]. *)
Definition computed_for (b : Client) (jiraIssueList : list string)
    (linkList : list InputLinkMap) (i : nat) (nm : string) (lk : Link) : Prop :=
  exists issueName l shortened err,
    jiraIssueList !! i = Some issueName /\ l ∈ linkList /\ name l = nm /\
    Shorten b (long_url l issueName) = Some (shortened, err) /\
    stripped shortened = Some lk.

(** Every call the pipeline makes returns, with a URL of 7 bytes or more. *)
Definition answers_long (b : Client) (jiraIssueList : list string)
    (linkList : list InputLinkMap) : Prop :=
  forall issueName l, issueName ∈ jiraIssueList -> l ∈ linkList ->
    exists shortened err,
      Shorten b (long_url l issueName) = Some (shortened, err) /\
      7 <= String.length (URL shortened).

(** Every name of [linkList] is one the loop routes. *)
Definition registered (linkList : list InputLinkMap) : Prop :=
  forall l, l ∈ linkList -> is_Some (field_of (name l)).

(** No two links of [linkList] share a name and differ in the template. *)
Definition unambiguous (linkList : list InputLinkMap) : Prop :=
  forall l1 l2, l1 ∈ linkList -> l2 ∈ linkList ->
    name l1 = name l2 -> urlTemplate l1 = urlTemplate l2.

(** [v] is the map of an issue whose key is [k]. *)
Definition issue_with_key (st : Store) (v : Value) (k : string) : Prop :=
  exists r, v = VMap r /\ map_index st r "key" = VString k.

(** Two stores hold the same maps up to the entries for [bitlyLink]. *)
Definition agree_off_bitlyLink (st st' : Store) : Prop :=
  forall r,
    match st !! r, st' !! r with
    | Some m, Some m' => forall k, k <> "bitlyLink" -> m !! k = m' !! k
    | None, None => True
    | _, _ => False
    end.

(** The [issues] slice of [data]. *)
Definition issues_of (st : Store) (data : Value) : list Value :=
  match data with
  | VMap r => match map_index st r "issues" with VSlice l => l | _ => [] end
  | _ => []
  end.

(** The last slot the loop of [extendLinksWithBitlyUrls] assigns to the
    map at [r], counting positions from [i]. *)
Fixpoint last_write (r : loc) (i : nat) (issues : list Value)
    (bitlyLinkList : list OutputLinkMap) : option OutputLinkMap :=
  match issues with
  | [] => None
  | v :: issues' =>
      match last_write r (S i) issues' bitlyLinkList with
      | Some o => Some o
      | None => match v with
                | VMap r' => if decide (r' = r) then bitlyLinkList !! i else None
                | _ => None
                end
      end
  end.

(** * Properties *)

(** ** The channel *)

Section Arrivals.
Context {A : Type}.
Implicit Types (pending : list A) (sched : list nat).

Lemma arrivals_aux_Permutation n sched pending :
  length pending = n -> Permutation (arrivals_aux n sched pending) pending.
Proof.
  revert sched pending. induction n as [|n IH]; intros sched pending Hlen; simpl.
  - destruct pending; [constructor | discriminate].
  - set (k := hd 0 sched `mod` length pending).
    assert (Hk : k < length pending).
    { subst k. apply Nat.mod_upper_bound. lia. }
    destruct (lookup_lt_is_Some_2 pending k Hk) as [m Hm]. rewrite Hm.
    etrans; [|symmetry; apply (delete_Permutation pending k m Hm)].
    constructor. apply IH.
    rewrite length_delete by eauto. lia.
Qed.

(** Every oracle delivers each pending send once. *)
Lemma arrivals_Permutation sched pending :
  Permutation (arrivals sched pending) pending.
Proof. by apply arrivals_aux_Permutation. Qed.

Lemma arrivals_length sched pending :
  length (arrivals sched pending) = length pending.
Proof. apply Permutation_length, arrivals_Permutation. Qed.

(** Every order of the pending sends is delivered by some oracle. *)
Lemma arrivals_complete pending (l : list A) :
  Permutation l pending -> exists sched, arrivals sched pending = l.
Proof.
  unfold arrivals. revert pending.
  induction l as [|x l IH]; intros pending Hp.
  - apply Permutation_nil in Hp. subst. by exists [].
  - assert (Hx : x ∈ pending) by (rewrite <- Hp; left).
    apply list_elem_of_lookup in Hx as [k Hk].
    assert (Hlt : k < length pending) by (eapply lookup_lt_Some; eauto).
    assert (Hp' : Permutation l (delete k pending)).
    { apply (Permutation_cons_inv (a := x)).
      etrans; [exact Hp|]. apply (delete_Permutation pending k x Hk). }
    destruct (IH _ Hp') as [sched Hs].
    exists (k :: sched).
    destruct pending as [|y pending]; [simpl in Hlt; lia|].
    cbn [length arrivals_aux hd tl].
    rewrite Nat.mod_small by (simpl in Hlt; lia).
    rewrite Hk. f_equal.
    rewrite <- Hs. f_equal.
    rewrite length_delete by eauto. simpl. lia.
Qed.
End Arrivals.

(** ** One iteration of the loop *)

Lemma field_of_Some nm f :
  field_of nm = Some f <->
  (nm = "jira" /\ f = FJira) \/ (nm = "stash" /\ f = FStash).
Proof.
  unfold field_of.
  destruct (String.eqb_spec nm "jira") as [->|Hj].
  - split; [intros [= <-]; by left | intros [[_ ->]|[[=] _]]; done].
  - destruct (String.eqb_spec nm "stash") as [->|Hs].
    + split; [intros [= <-]; by right | intros [[[=] _]|[_ ->]]; done].
    + split; [done | intros [[-> _]|[-> _]]; done].
Qed.

Lemma field_of_None nm :
  field_of nm = None <-> nm <> "jira" /\ nm <> "stash".
Proof.
  unfold field_of.
  destruct (String.eqb_spec nm "jira") as [->|Hj]; [split; [done | intros [? _]; done]|].
  destruct (String.eqb_spec nm "stash") as [->|Hs]; [split; [done | intros [_ ?]; done]|].
  done.
Qed.

Lemma slice_from_is_Some s n : is_Some (slice_from s n) <-> n <= String.length s.
Proof.
  revert s. induction n as [|n IH]; intros s; simpl.
  - split; [intros _; lia | intros _; by eexists].
  - destruct s as [|c s]; simpl.
    + split; [intros [? [=]] | lia].
    + rewrite IH. lia.
Qed.

Lemma stripped_is_Some l : is_Some (stripped l) <-> 7 <= String.length (URL l).
Proof.
  rewrite <- slice_from_is_Some. unfold stripped.
  destruct (slice_from (URL l) 7); split; intros [? ?]; eauto; done.
Qed.

Lemma stripped_None l : stripped l = None <-> String.length (URL l) < 7.
Proof.
  rewrite eq_None_not_Some, stripped_is_Some. lia.
Qed.

(** What an iteration does, by the field the name is routed to. *)
Lemma merge_unfold m out :
  merge m out =
  match out !! index m with
  | None => inl IndexOutOfRange
  | Some current =>
      match field_of (bname m) with
      | None => inl (Explicit "bad bitlyLink name")
      | Some f =>
          match stripped (link m) with
          | None => inl SliceBoundsOutOfRange
          | Some l' => inr (<[index m := set_field f current l']> out)
          end
      end
  end.
Proof.
  unfold merge, field_of, stripped.
  destruct (out !! index m) as [current|]; [|done].
  destruct (String.eqb (bname m) "jira"); cbn [JiraLink StashLink set_field].
  - by destruct (slice_from (URL (link m)) 7).
  - destruct (String.eqb (bname m) "stash"); cbn [JiraLink StashLink set_field]; [|done].
    by destruct (slice_from (URL (link m)) 7).
Qed.

Lemma merge_inr m out out' :
  merge m out = inr out' <->
  exists current f l',
    out !! index m = Some current /\ field_of (bname m) = Some f /\
    stripped (link m) = Some l' /\ out' = <[index m := set_field f current l']> out.
Proof.
  rewrite merge_unfold.
  destruct (out !! index m) as [current|]; [|split; [done | intros (?&?&?&[=]&_)]].
  destruct (field_of (bname m)) as [f|]; [|split; [done | intros (?&?&?&_&[=]&_)]].
  destruct (stripped (link m)) as [l'|]; [|split; [done | intros (?&?&?&_&_&[=]&_)]].
  split.
  - intros [= <-]. by exists current, f, l'.
  - intros (?&?&?&[= <-]&[= <-]&[= <-]&->). done.
Qed.

Lemma merge_length m out out' : merge m out = inr out' -> length out' = length out.
Proof.
  rewrite merge_inr. intros (?&?&?&_&_&_&->). apply length_insert.
Qed.

(** An iteration changes no slot but the one of its result. *)
Lemma merge_other m out out' i :
  merge m out = inr out' -> i <> index m -> out' !! i = out !! i.
Proof.
  rewrite merge_inr. intros (?&?&?&_&_&_&->) Hi. by apply list_lookup_insert_ne.
Qed.

Lemma get_set_field f o l : get_field f (set_field f o l) = l.
Proof. by destruct f. Qed.

Lemma get_set_field_ne f g o l : f <> g -> get_field f (set_field g o l) = get_field f o.
Proof. by destruct f, g. Qed.

Lemma OutputLinkMap_eq o1 o2 :
  (forall f, get_field f o1 = get_field f o2) -> o1 = o2.
Proof.
  destruct o1, o2. intros H.
  pose proof (H FJira). pose proof (H FStash). simpl in *. congruence.
Qed.

(** ** The loop *)

Lemma aggregate_length n channel out out' :
  (aggregate n channel out).1 = Returned out' -> length out' = length out.
Proof.
  revert channel out. induction n as [|n IH]; intros channel out; simpl.
  - by intros [= <-].
  - destruct channel as [|m channel]; [done|].
    destruct (merge m out) as [p|out1] eqn:Hm; [done|]. simpl.
    intros H. apply IH in H. rewrite H. by eapply merge_length.
Qed.

(** The loop never receives more than [n] results, nor more than were sent. *)
Lemma aggregate_received_le n channel out :
  (aggregate n channel out).2 <= n /\ (aggregate n channel out).2 <= length channel.
Proof.
  revert channel out. induction n as [|n IH]; intros channel out; simpl; [lia|].
  destruct channel as [|m channel]; simpl; [lia|].
  destruct (merge m out) as [p|out1]; simpl; [lia|].
  specialize (IH channel out1). lia.
Qed.

(** It returns only after [n] receives. *)
Lemma aggregate_Returned_received n channel out out' :
  (aggregate n channel out).1 = Returned out' -> (aggregate n channel out).2 = n.
Proof.
  revert channel out. induction n as [|n IH]; intros channel out; simpl; [done|].
  destruct channel as [|m channel]; [done|].
  destruct (merge m out) as [p|out1]; [done|]. simpl.
  intros H. f_equal. eauto.
Qed.


(** With fewer results than iterations the loop does not return. *)
Lemma aggregate_short n channel out out' :
  length channel < n -> (aggregate n channel out).1 <> Returned out'.
Proof.
  intros Hlt H. apply aggregate_Returned_received in H.
  pose proof (aggregate_received_le n channel out). lia.
Qed.

(** The table after the loop, slot by slot and field by field: the last
    result routed there, with its URL cut, or what was there before. *)
Lemma aggregate_final n channel out out' i f o' :
  (aggregate n channel out).1 = Returned out' ->
  length channel <= n ->
  out' !! i = Some o' ->
  exists o, out !! i = Some o /\
    match last_for i f channel with
    | Some m => stripped (link m) = Some (get_field f o')
    | None => get_field f o' = get_field f o
    end.
Proof.
  revert n out. induction channel as [|m channel IH]; intros n out Hr Hlen Ho'.
  - destruct n; simpl in *; [|done]. injection Hr as <-. eauto.
  - destruct n as [|n]; simpl in Hlen; [lia|]. simpl in Hr.
    destruct (merge m out) as [p|out1] eqn:Hm; [done|]. simpl in Hr.
    destruct (IH n out1 Hr ltac:(lia) Ho') as (o1 & Ho1 & Hlast).
    apply merge_inr in Hm as (current & g & l' & Hcur & Hg & Hl' & ->).
    unfold last_for in *. rewrite filter_cons.
    destruct (decide (i = index m)) as [->|Hne].
    + rewrite list_lookup_insert_eq in Ho1 by (eapply lookup_lt_Some; eauto).
      injection Ho1 as <-. exists current. split; [done|].
      case_decide as Hfor.
      * destruct (filter _ channel) as [|m' ms] eqn:Hf.
        -- simpl in *. rewrite Hlast.
           apply andb_true_iff in Hfor as [_ Hf2].
           apply bool_decide_eq_true in Hf2.
           assert (g = f) as -> by congruence.
           by rewrite get_set_field.
        -- rewrite last_cons. destruct (last (m' :: ms)) eqn:Hl; [done|].
           by rewrite last_None in Hl.
      * destruct (last (filter _ channel)); [done|].
        rewrite Hlast. apply get_set_field_ne.
        intros ->. apply Hfor. unfold for_slot.
        by rewrite !bool_decide_eq_true_2.
    + rewrite list_lookup_insert_ne in Ho1 by done.
      exists o1. split; [done|].
      rewrite decide_False; [done|].
      unfold for_slot. rewrite bool_decide_eq_false_2 by done. done.
Qed.

(** ** The goroutines *)

Lemma elem_of_spawned jiraIssueList linkList i issueName l :
  (i, issueName, l) ∈ spawned jiraIssueList linkList <->
  jiraIssueList !! i = Some issueName /\ l ∈ linkList.
Proof.
  unfold spawned. rewrite list_elem_of_bind. split.
  - intros (l' & Hin & Hl').
    apply elem_of_lookup_imap in Hin as (j & k & [= -> -> ->] & Hj). done.
  - intros [Hi Hl]. exists l. split; [|done].
    apply elem_of_lookup_imap. by exists i, issueName.
Qed.

(** One goroutine is started per pair. *)
Lemma length_spawned jiraIssueList linkList :
  length (spawned jiraIssueList linkList) = length jiraIssueList * length linkList.
Proof.
  unfold spawned. induction linkList as [|l linkList IH]; [simpl; lia|].
  rewrite bind_cons, length_app, length_imap, IH. simpl. lia.
Qed.

Lemma worker_Some b i issueName l m :
  worker b i issueName l = Some m <->
  exists shortened err,
    Shorten b (long_url l issueName) = Some (shortened, err) /\
    m = mkBitlyLink i (name l) shortened.
Proof.
  unfold worker, getBitlyLink, long_url. simpl.
  destruct (Shorten b _) as [[shortened err]|]; simpl; split.
  - intros [= <-]. by exists shortened, err.
  - intros (?&?&[= <- <-]&->). done.
  - done.
  - intros (?&?&[=]&_).
Qed.

Lemma worker_None b i issueName l :
  worker b i issueName l = None <-> Shorten b (long_url l issueName) = None.
Proof.
  unfold worker, getBitlyLink, long_url. simpl.
  by destruct (Shorten b _) as [[shortened err]|].
Qed.

Lemma elem_of_sent b jiraIssueList linkList m :
  m ∈ sent b jiraIssueList linkList <->
  exists issueName l shortened err,
    jiraIssueList !! index m = Some issueName /\ l ∈ linkList /\
    Shorten b (long_url l issueName) = Some (shortened, err) /\
    m = mkBitlyLink (index m) (name l) shortened.
Proof.
  unfold sent. rewrite list_elem_of_omap. split.
  - intros ([[i k] l] & Hin & Hw). simpl in Hw.
    apply elem_of_spawned in Hin as [Hi Hl].
    apply worker_Some in Hw as (lk & e & Hs & ->). simpl.
    by exists k, l, lk, e.
  - intros (k & l & lk & e & Hi & Hl & Hs & Hm).
    exists (index m, k, l). split; [by apply elem_of_spawned|]. simpl.
    apply worker_Some. by exists lk, e.
Qed.

Lemma length_omap_le {A B} (f : A -> option B) (l : list A) :
  length (omap f l) <= length l.
Proof.
  induction l as [|x l IH]; csimpl; [lia|]. destruct (f x); simpl; lia.
Qed.

Lemma length_omap_all {A B} (f : A -> option B) (l : list A) :
  (forall x, x ∈ l -> is_Some (f x)) -> length (omap f l) = length l.
Proof.
  induction l as [|x l IH]; intros H; csimpl; [done|].
  destruct (H x) as [y ->]; [left|]. simpl. f_equal. apply IH.
  intros z Hz. apply H. by right.
Qed.

Lemma length_omap_lt {A B} (f : A -> option B) (l : list A) x :
  x ∈ l -> f x = None -> length (omap f l) < length l.
Proof.
  induction l as [|y l IH]; intros Hx Hf; [by apply elem_of_nil in Hx|].
  csimpl. apply elem_of_cons in Hx as [<-|Hx].
  - rewrite Hf. pose proof (length_omap_le f l). simpl. lia.
  - specialize (IH Hx Hf). destruct (f y); simpl; lia.
Qed.

(** Every goroutine sends at most once. *)
Lemma length_sent_le b jiraIssueList linkList :
  length (sent b jiraIssueList linkList) <= length jiraIssueList * length linkList.
Proof.
  unfold sent. rewrite <- length_spawned. apply length_omap_le.
Qed.

(** When every call returns, every goroutine sends once. *)
Lemma length_sent_all b jiraIssueList linkList :
  (forall issueName l, issueName ∈ jiraIssueList -> l ∈ linkList ->
     is_Some (Shorten b (long_url l issueName))) ->
  length (sent b jiraIssueList linkList) = length jiraIssueList * length linkList.
Proof.
  intros H. unfold sent. rewrite <- length_spawned. apply length_omap_all.
  intros [[i k] l] Hin. simpl. apply elem_of_spawned in Hin as [Hi Hl].
  destruct (H k l) as [[lk e] Hs]; [by eapply list_elem_of_lookup_2 | done |].
  exists (mkBitlyLink i (name l) lk). apply worker_Some. by exists lk, e.
Qed.

(** A call that never returns leaves the channel one send short. *)
Lemma length_sent_lt b jiraIssueList linkList i issueName l :
  jiraIssueList !! i = Some issueName -> l ∈ linkList ->
  Shorten b (long_url l issueName) = None ->
  length (sent b jiraIssueList linkList) < length jiraIssueList * length linkList.
Proof.
  intros Hi Hl Hs. unfold sent. rewrite <- length_spawned.
  apply (length_omap_lt _ _ (i, issueName, l)); [by apply elem_of_spawned|].
  by apply worker_None.
Qed.

Lemma elem_of_arrivals_sent b jiraIssueList linkList sched m :
  m ∈ arrivals sched (sent b jiraIssueList linkList) <->
  m ∈ sent b jiraIssueList linkList.
Proof. by rewrite (arrivals_Permutation sched). Qed.

(** ** The loop over a whole channel *)

Lemma merge_panic_of m out :
  index m < length out ->
  match panic_of m with
  | Some p => merge m out = inl p
  | None => exists out', merge m out = inr out'
  end.
Proof.
  intros Hlt. rewrite merge_unfold. unfold panic_of.
  destruct (lookup_lt_is_Some_2 out _ Hlt) as [current ->].
  destruct (field_of (bname m)); [|done].
  destruct (stripped (link m)); [eauto | done].
Qed.

(** When no result panics the loop returns if there are [n] of them and
    blocks if there are fewer. *)
Lemma aggregate_no_panic n channel out :
  Forall (fun m => index m < length out) channel ->
  Forall (fun m => panic_of m = None) channel ->
  length channel <= n ->
  if decide (length channel = n)
  then exists out', (aggregate n channel out).1 = Returned out'
  else (aggregate n channel out).1 = Blocked.
Proof.
  revert n out. induction channel as [|m channel IH]; intros n out Hidx Hok Hlen.
  - destruct n; simpl; [eauto | done].
  - destruct n as [|n]; simpl in Hlen; [lia|].
    apply Forall_cons in Hidx as [Hm Hidx]. apply Forall_cons in Hok as [Hpm Hok].
    pose proof (merge_panic_of m out Hm) as Hmerge. rewrite Hpm in Hmerge.
    destruct Hmerge as [out1 Hmerge]. simpl. rewrite Hmerge. simpl.
    assert (Hl1 : length out1 = length out) by by eapply merge_length.
    rewrite <- Hl1 in Hidx.
    specialize (IH n out1 Hidx Hok ltac:(lia)).
    destruct (decide (length channel = n)), (decide (S (length channel) = S n));
      first [done | lia].
Qed.

(** When the only panic a result of the channel can raise is [p], and
    some result raises it, the loop panics with [p]. *)
Lemma aggregate_panic p n channel out :
  Forall (fun m => index m < length out) channel ->
  Forall (fun m => panic_of m = None \/ panic_of m = Some p) channel ->
  Exists (fun m => panic_of m = Some p) channel ->
  length channel <= n ->
  (aggregate n channel out).1 = Panicked p.
Proof.
  revert n out. induction channel as [|m channel IH]; intros n out Hidx Hok Hex Hlen.
  - by apply Exists_nil in Hex.
  - destruct n as [|n]; simpl in Hlen; [lia|].
    apply Forall_cons in Hidx as [Hm Hidx]. apply Forall_cons in Hok as [Hpm Hok].
    pose proof (merge_panic_of m out Hm) as Hmerge. simpl.
    destruct Hpm as [Hpm|Hpm]; rewrite Hpm in Hmerge.
    + destruct Hmerge as [out1 Hmerge]. rewrite Hmerge. simpl.
      apply Exists_cons in Hex as [Hex|Hex]; [congruence|].
      apply IH; [|done..|lia].
      by rewrite (merge_length _ _ _ Hmerge).
    + by rewrite Hmerge.
Qed.

(** ** getBitlyLinks *)

Section Pipeline.
Variables (b : Client) (jiraIssueList : list string) (linkList : list InputLinkMap).

Let numKeys := length jiraIssueList.
Let numLinks := length linkList.
Let out0 := replicate numKeys zeroOutputLinkMap.

Lemma getBitlyLinks_unfold sched :
  getBitlyLinks b jiraIssueList linkList sched =
  match (aggregate (numKeys * numLinks)
           (arrivals sched (sent b jiraIssueList linkList)) out0).1 with
  | Returned out => Returned (out, None)
  | Panicked p => Panicked p
  | Blocked => Blocked
  end.
Proof.
  unfold getBitlyLinks, getBitlyLinks_received.
  fold numKeys numLinks out0.
  by destruct (aggregate _ _ _) as [[?|?|] ?].
Qed.

Lemma sent_index_lt m :
  m ∈ sent b jiraIssueList linkList -> index m < length out0.
Proof.
  rewrite elem_of_sent. intros (k & _ & _ & _ & Hk & _).
  subst out0 numKeys. rewrite length_replicate. by eapply lookup_lt_Some.
Qed.

Lemma arrivals_index_lt sched :
  Forall (fun m => index m < length out0)
    (arrivals sched (sent b jiraIssueList linkList)).
Proof.
  apply Forall_forall. intros m Hm. apply sent_index_lt.
  by apply elem_of_arrivals_sent in Hm.
Qed.

Lemma arrivals_length_le sched :
  length (arrivals sched (sent b jiraIssueList linkList)) <= numKeys * numLinks.
Proof. rewrite arrivals_length. apply length_sent_le. Qed.

(** The panic a sent result raises, from the link it was computed for. *)
Lemma sent_panic_of m :
  m ∈ sent b jiraIssueList linkList ->
  exists issueName l shortened err,
    jiraIssueList !! index m = Some issueName /\ l ∈ linkList /\
    Shorten b (long_url l issueName) = Some (shortened, err) /\
    bname m = name l /\ link m = shortened.
Proof.
  rewrite elem_of_sent. intros (k & l & lk & e & Hk & Hl & Hs & Hm).
  exists k, l, lk, e. rewrite Hm. simpl. done.
Qed.

(** No call returned a URL shorter than 7 bytes and every name is
    routed: the loop returns when all calls return, and blocks
    otherwise, whatever the order of arrival. *)
Lemma getBitlyLinks_no_panic sched :
  Forall (fun m => panic_of m = None) (sent b jiraIssueList linkList) ->
  if decide (length (sent b jiraIssueList linkList) = numKeys * numLinks)
  then exists out, getBitlyLinks b jiraIssueList linkList sched = Returned (out, None)
  else getBitlyLinks b jiraIssueList linkList sched = Blocked.
Proof.
  intros Hok. rewrite getBitlyLinks_unfold.
  pose proof (aggregate_no_panic (numKeys * numLinks)
    (arrivals sched (sent b jiraIssueList linkList)) out0
    (arrivals_index_lt sched)) as H.
  rewrite arrivals_length in H.
  specialize (H ltac:(by rewrite (arrivals_Permutation sched))
                (length_sent_le _ _ _)).
  case_decide.
  - destruct H as [out' ->]. eauto.
  - by rewrite H.
Qed.

(** The only panic the sent results can raise is [p], and one raises
    it: the call panics with [p], whatever the order of arrival. *)
Lemma getBitlyLinks_panic p sched :
  Forall (fun m => panic_of m = None \/ panic_of m = Some p)
    (sent b jiraIssueList linkList) ->
  Exists (fun m => panic_of m = Some p) (sent b jiraIssueList linkList) ->
  getBitlyLinks b jiraIssueList linkList sched = Panicked p.
Proof.
  intros Hok Hex. rewrite getBitlyLinks_unfold.
  rewrite (aggregate_panic p); [done| | | |].
  - apply arrivals_index_lt.
  - by rewrite (arrivals_Permutation sched).
  - by rewrite (arrivals_Permutation sched).
  - apply arrivals_length_le.
Qed.
End Pipeline.

(** ** The table getBitlyLinks returns *)

Lemma last_for_Some i f channel m :
  last_for i f channel = Some m ->
  m ∈ channel /\ index m = i /\ field_of (bname m) = Some f.
Proof.
  unfold last_for. intros H.
  apply last_Some_elem_of in H. apply list_elem_of_filter in H as [Hfor Hin].
  apply andb_true_iff in Hfor as [H1 H2].
  apply bool_decide_eq_true in H1, H2. done.
Qed.

Lemma last_for_None i f channel :
  last_for i f channel = None <->
  forall m, m ∈ channel -> index m = i -> field_of (bname m) <> Some f.
Proof.
  unfold last_for. rewrite last_None. split.
  - intros Hnil m Hin Hi Hf.
    assert (Hm : m ∈ filter (fun m => for_slot i f m = true) channel).
    { apply list_elem_of_filter. split; [|done].
      unfold for_slot. by rewrite !bool_decide_eq_true_2. }
    rewrite Hnil in Hm. by apply elem_of_nil in Hm.
  - intros H. destruct (filter _ channel) as [|m ms] eqn:Hf; [done|].
    assert (Hm : m ∈ filter (fun m => for_slot i f m = true) channel)
      by (rewrite Hf; left).
    apply list_elem_of_filter in Hm as [Hfor Hin].
    apply andb_true_iff in Hfor as [H1 H2].
    apply bool_decide_eq_true in H1, H2. by destruct (H m).
Qed.

Section Table.
Variables (b : Client) (jiraIssueList : list string) (linkList : list InputLinkMap).

(** A returned table has a slot per identifier and a nil error; each
    field of each slot holds the last result that arrived for it, with
    its URL cut, or the zero link when none did. *)
Lemma getBitlyLinks_Returned sched table err :
  getBitlyLinks b jiraIssueList linkList sched = Returned (table, err) ->
  err = None /\ length table = length jiraIssueList /\
  length (sent b jiraIssueList linkList) = length jiraIssueList * length linkList /\
  forall i o f, table !! i = Some o ->
    match last_for i f (arrivals sched (sent b jiraIssueList linkList)) with
    | Some m => stripped (link m) = Some (get_field f o)
    | None => get_field f o = zeroLink
    end.
Proof.
  rewrite getBitlyLinks_unfold.
  destruct (aggregate _ _ _) as [[out| |] k] eqn:Hagg; simpl; [|done..].
  intros [= -> <-].
  assert (Hr : (aggregate (length jiraIssueList * length linkList)
            (arrivals sched (sent b jiraIssueList linkList))
            (replicate (length jiraIssueList) zeroOutputLinkMap)).1 = Returned table)
    by by rewrite Hagg.
  split; [done|]. split; [|split].
  - apply aggregate_length in Hr. by rewrite length_replicate in Hr.
  - pose proof (aggregate_Returned_received _ _ _ _ Hr) as Hn.
    pose proof (aggregate_received_le (length jiraIssueList * length linkList)
      (arrivals sched (sent b jiraIssueList linkList))
      (replicate (length jiraIssueList) zeroOutputLinkMap)) as [_ Hle].
    rewrite arrivals_length in Hle.
    pose proof (length_sent_le b jiraIssueList linkList). lia.
  - intros i o f Ho.
    destruct (aggregate_final _ _ _ _ i f o Hr (arrivals_length_le _ _ _ _) Ho)
      as (o0 & Ho0 & Hlast).
    apply lookup_replicate in Ho0 as [-> _].
    destruct (last_for _ _ _); [done|]. by destruct f.
Qed.

(** Two sent results for the same slot and field carry the same link. *)
Lemma sent_same_link m1 m2 f :
  unambiguous linkList ->
  m1 ∈ sent b jiraIssueList linkList -> m2 ∈ sent b jiraIssueList linkList ->
  index m1 = index m2 ->
  field_of (bname m1) = Some f -> field_of (bname m2) = Some f ->
  link m1 = link m2.
Proof.
  intros Hu H1 H2 Hi Hf1 Hf2.
  apply sent_panic_of in H1 as (k1 & l1 & lk1 & e1 & Hk1 & Hl1 & Hs1 & Hn1 & ->).
  apply sent_panic_of in H2 as (k2 & l2 & lk2 & e2 & Hk2 & Hl2 & Hs2 & Hn2 & ->).
  assert (bname m1 = bname m2) as Hb.
  { apply field_of_Some in Hf1, Hf2. destruct Hf1 as [[? ?]|[? ?]],
      Hf2 as [[? ?]|[? ?]]; congruence. }
  assert (k1 = k2) as -> by congruence.
  assert (urlTemplate l1 = urlTemplate l2) as Ht by (apply Hu; congruence).
  unfold long_url in *. rewrite Ht in Hs1. congruence.
Qed.

Lemma registered_panic_of m :
  registered linkList -> m ∈ sent b jiraIssueList linkList ->
  panic_of m = None \/ panic_of m = Some SliceBoundsOutOfRange.
Proof.
  intros Hreg Hm.
  apply sent_panic_of in Hm as (k & l & lk & e & _ & Hl & _ & Hn & _).
  unfold panic_of. rewrite Hn. destruct (Hreg l Hl) as [f ->].
  destruct (stripped (link m)); eauto.
Qed.

(** With routed, unambiguous names the outcome of getBitlyLinks does
    not depend on the order in which the results arrive. *)
Lemma getBitlyLinks_sched_indep sched1 sched2 :
  registered linkList -> unambiguous linkList ->
  getBitlyLinks b jiraIssueList linkList sched1 =
  getBitlyLinks b jiraIssueList linkList sched2.
Proof.
  intros Hreg Hu.
  assert (Hall : Forall (fun m => panic_of m = None \/
                                  panic_of m = Some SliceBoundsOutOfRange)
                   (sent b jiraIssueList linkList)).
  { apply Forall_forall. intros m. by apply registered_panic_of. }
  destruct (decide (Exists (fun m => panic_of m = Some SliceBoundsOutOfRange)
                      (sent b jiraIssueList linkList))) as [Hex|Hnex].
  { by rewrite !(getBitlyLinks_panic _ _ _ SliceBoundsOutOfRange). }
  assert (Hok : Forall (fun m => panic_of m = None) (sent b jiraIssueList linkList)).
  { apply Forall_forall. intros m Hm.
    destruct (proj1 (Forall_forall _ _) Hall m Hm) as [?|Hp]; [done|].
    exfalso. apply Hnex, Exists_exists. eauto. }
  pose proof (getBitlyLinks_no_panic b jiraIssueList linkList sched1 Hok) as H1.
  pose proof (getBitlyLinks_no_panic b jiraIssueList linkList sched2 Hok) as H2.
  cbv zeta in H1, H2. case_decide; [|congruence].
  destruct H1 as [t1 H1], H2 as [t2 H2]. rewrite H1, H2. do 2 f_equal.
  apply getBitlyLinks_Returned in H1 as (_ & Hlen1 & _ & Hf1).
  apply getBitlyLinks_Returned in H2 as (_ & Hlen2 & _ & Hf2).
  apply list_eq_same_length with (length jiraIssueList); [done..|].
  intros i o1 o2 _ Ho1 Ho2. apply OutputLinkMap_eq. intros f.
  specialize (Hf1 i o1 f Ho1). specialize (Hf2 i o2 f Ho2).
  destruct (last_for i f (arrivals sched1 _)) as [m1|] eqn:Hl1,
           (last_for i f (arrivals sched2 _)) as [m2|] eqn:Hl2.
  - apply last_for_Some in Hl1 as (Hin1 & Hi1 & Hfld1).
    apply last_for_Some in Hl2 as (Hin2 & Hi2 & Hfld2).
    apply elem_of_arrivals_sent in Hin1, Hin2.
    assert (link m1 = link m2) as Hlk
      by (eapply sent_same_link; eauto; congruence).
    rewrite Hlk in Hf1. congruence.
  - apply last_for_Some in Hl1 as (Hin1 & Hi1 & Hfld1).
    exfalso. eapply (proj1 (last_for_None _ _ _) Hl2 m1); [|done..].
    apply elem_of_arrivals_sent. by apply elem_of_arrivals_sent in Hin1.
  - apply last_for_Some in Hl2 as (Hin2 & Hi2 & Hfld2).
    exfalso. eapply (proj1 (last_for_None _ _ _) Hl1 m2); [|done..].
    apply elem_of_arrivals_sent. by apply elem_of_arrivals_sent in Hin2.
  - congruence.
Qed.
End Table.

(** ** The registry of ExtendLinksWithBitly *)

Lemma elem_of_linksToExtend l : l ∈ linksToExtend <-> l = jiraLink \/ l = stashLink.
Proof.
  unfold linksToExtend. rewrite !elem_of_cons, elem_of_nil. tauto.
Qed.

Lemma registered_linksToExtend : registered linksToExtend.
Proof. intros l [->| ->]%elem_of_linksToExtend; by eexists. Qed.

Lemma unambiguous_linksToExtend : unambiguous linksToExtend.
Proof.
  intros l1 l2 H1 H2. apply elem_of_linksToExtend in H1, H2.
  destruct H1 as [->| ->], H2 as [->| ->]; done.
Qed.

(** ** parseJiraLinks *)

Lemma parseJiraLinks_loop_inv st issues acc keys :
  parseJiraLinks_loop st issues acc = inr keys ->
  exists ks, keys = (acc ++ ks)%list /\ Forall2 (issue_with_key st) issues ks.
Proof.
  revert acc. induction issues as [|v issues IH]; intros acc; simpl.
  - intros [= <-]. exists []. by rewrite app_nil_r.
  - destruct v as [| | | |r|]; simpl; try done.
    destruct (map_index st r "key") as [| |k| | |] eqn:Hk; simpl; try done.
    intros (ks & -> & HF)%IH. exists (k :: ks). split.
    + by rewrite <- app_assoc.
    + constructor; [by exists r | done].
Qed.

Lemma parseJiraLinks_loop_ok st issues acc ks :
  Forall2 (issue_with_key st) issues ks ->
  parseJiraLinks_loop st issues acc = inr (acc ++ ks)%list.
Proof.
  intros HF. revert acc. induction HF as [|v k issues ks (r & -> & Hk) HF IH]; intros acc.
  - by rewrite app_nil_r.
  - simpl. rewrite Hk. simpl. rewrite IH. by rewrite <- app_assoc.
Qed.

(** parseJiraLinks returns exactly on a map whose [issues] entry is a
    slice of maps with a string under [key]; the result lists the keys
    in order. *)
Lemma parseJiraLinks_inr st data keys :
  parseJiraLinks st data = inr keys <->
  exists r issues,
    data = VMap r /\ map_index st r "issues" = VSlice issues /\
    Forall2 (issue_with_key st) issues keys.
Proof.
  unfold parseJiraLinks. split.
  - destruct data as [| | | |r|]; simpl; try done.
    destruct (map_index st r "issues") as [| | |issues| |] eqn:Hi; simpl; try done.
    intros (ks & -> & HF)%parseJiraLinks_loop_inv. by exists r, issues.
  - intros (r & issues & -> & Hi & HF). simpl. rewrite Hi. simpl.
    by rewrite (parseJiraLinks_loop_ok _ _ _ _ HF).
Qed.

Lemma issue_with_key_allocated st v k :
  issue_with_key st v k -> exists r, v = VMap r /\ is_Some (st !! r).
Proof.
  intros (r & -> & Hk). exists r. split; [done|].
  unfold map_index in Hk. by destruct (st !! r).
Qed.

(** ** Stores that differ in bitlyLink entries only *)

Lemma agree_refl st : agree_off_bitlyLink st st.
Proof. intros r. by destruct (st !! r). Qed.

Lemma agree_trans st1 st2 st3 :
  agree_off_bitlyLink st1 st2 -> agree_off_bitlyLink st2 st3 ->
  agree_off_bitlyLink st1 st3.
Proof.
  intros H12 H23 r. specialize (H12 r). specialize (H23 r).
  destruct (st1 !! r), (st2 !! r), (st3 !! r); try done.
  intros k Hk. by rewrite H12, H23.
Qed.

Lemma agree_map_assign st r v st' :
  map_assign st r "bitlyLink" v = inr st' -> agree_off_bitlyLink st st'.
Proof.
  unfold map_assign. destruct (st !! r) as [m|] eqn:Hr; [|done].
  intros [= <-] r'. destruct (decide (r = r')) as [<-|Hne].
  - rewrite Hr, lookup_insert_eq. intros k Hk. by rewrite lookup_insert_ne.
  - rewrite lookup_insert_ne by done. by destruct (st !! r').
Qed.

Lemma agree_map_index st st' r k :
  agree_off_bitlyLink st st' -> k <> "bitlyLink" ->
  map_index st' r k = map_index st r k.
Proof.
  intros H Hk. specialize (H r). unfold map_index.
  destruct (st !! r), (st' !! r); try done. by rewrite (H k Hk).
Qed.

Lemma agree_issue_with_key st st' v k :
  agree_off_bitlyLink st st' -> issue_with_key st v k -> issue_with_key st' v k.
Proof.
  intros H (r & -> & Hk). exists r. split; [done|].
  by rewrite (agree_map_index st st').
Qed.

(** parseJiraLinks does not read the bitlyLink entries. *)
Lemma parseJiraLinks_agree st st' data keys :
  agree_off_bitlyLink st st' ->
  parseJiraLinks st data = inr keys -> parseJiraLinks st' data = inr keys.
Proof.
  intros H. rewrite !parseJiraLinks_inr. intros (r & issues & -> & Hi & HF).
  exists r, issues. split; [done|]. split.
  - by rewrite (agree_map_index st st').
  - eapply Forall2_impl; [done|]. intros v k. by apply agree_issue_with_key.
Qed.

(** ** extendLinksWithBitlyUrls *)

(** Whatever the loop does, it changes bitlyLink entries only. *)
Lemma extendLinks_loop_agree st i issues table :
  agree_off_bitlyLink st (extendLinks_loop st i issues table).1.
Proof.
  revert st i. induction issues as [|v issues IH]; intros st i; simpl.
  - apply agree_refl.
  - destruct (assert_map v) as [p|r]; [apply agree_refl|].
    destruct (table !! i) as [o|]; [|apply agree_refl].
    destruct (map_assign st r "bitlyLink" (VOutputLinkMap o)) as [p|st1] eqn:Ha;
      [apply agree_refl|].
    eapply agree_trans; [by eapply agree_map_assign | apply IH].
Qed.

(** The loop returns when every issue is an allocated map and the table
    has a slot for each position. *)
Lemma extendLinks_loop_returns st i issues table :
  Forall (fun v => exists r, v = VMap r /\ is_Some (st !! r)) issues ->
  i + length issues <= length table ->
  (extendLinks_loop st i issues table).2 = None.
Proof.
  revert st i. induction issues as [|v issues IH]; intros st i HF Hlen; [done|].
  apply Forall_cons in HF as [(r & -> & [m Hm]) HF]. simpl in *.
  destruct (lookup_lt_is_Some_2 table i ltac:(lia)) as [o ->].
  unfold map_assign. rewrite Hm. apply IH; [|lia].
  eapply Forall_impl; [done|]. intros v (r' & -> & Hr'). exists r'. split; [done|].
  destruct (decide (r = r')) as [<-|Hne].
  - by rewrite lookup_insert_eq.
  - by rewrite lookup_insert_ne.
Qed.

(** The table is too short: the loop panics at the first position
    without a slot. *)
Lemma extendLinks_loop_short st i issues table :
  Forall (fun v => exists r, v = VMap r /\ is_Some (st !! r)) issues ->
  i <= length table < i + length issues ->
  (extendLinks_loop st i issues table).2 = Some IndexOutOfRange.
Proof.
  revert st i. induction issues as [|v issues IH]; intros st i HF Hlen;
    [simpl in Hlen; lia|].
  apply Forall_cons in HF as [(r & -> & [m Hm]) HF]. simpl in *.
  destruct (table !! i) as [o|] eqn:Ho; [|done].
  apply lookup_lt_Some in Ho.
  unfold map_assign. rewrite Hm. apply IH; [|lia].
  eapply Forall_impl; [done|]. intros v (r' & -> & Hr'). exists r'. split; [done|].
  destruct (decide (r = r')) as [<-|Hne].
  - by rewrite lookup_insert_eq.
  - by rewrite lookup_insert_ne.
Qed.

(** After a loop that returned, each map holds under bitlyLink the last
    slot assigned to it, and is otherwise as before. *)
Lemma extendLinks_loop_lookup st i issues table r :
  (extendLinks_loop st i issues table).2 = None ->
  (extendLinks_loop st i issues table).1 !! r =
  match last_write r i issues table with
  | Some o => <["bitlyLink" := VOutputLinkMap o]> <$> st !! r
  | None => st !! r
  end.
Proof.
  revert st i. induction issues as [|v issues IH]; intros st i; simpl; [done|].
  destruct v as [| | | |r0|]; simpl; try done.
  destruct (table !! i) as [o|] eqn:Ho; [|done].
  unfold map_assign. destruct (st !! r0) as [m|] eqn:Hr0; [|done].
  intros Hret. rewrite (IH _ _ Hret).
  destruct (decide (r0 = r)) as [->|Hne].
  - rewrite lookup_insert_eq.
    destruct (last_write r (S i) issues table) as [o'|]; simpl.
    + by rewrite Hr0, insert_insert_eq.
    + by rewrite Hr0.
  - rewrite lookup_insert_ne by done.
    by destruct (last_write r (S i) issues table).
Qed.

(** What decides whether the loop returns does not depend on the
    bitlyLink entries. *)
Lemma extendLinks_loop_outcome_agree st st' i issues table :
  agree_off_bitlyLink st st' ->
  (extendLinks_loop st' i issues table).2 = (extendLinks_loop st i issues table).2.
Proof.
  revert st st' i. induction issues as [|v issues IH]; intros st st' i Hag; simpl; [done|].
  destruct (assert_map v) as [p|r]; [done|].
  destruct (table !! i) as [o|]; [|done].
  unfold map_assign. pose proof (Hag r) as Hr.
  destruct (st !! r) as [m|] eqn:Hm, (st' !! r) as [m'|] eqn:Hm'; try done.
  apply IH. intros r'. destruct (decide (r = r')) as [<-|Hne].
  - rewrite !lookup_insert_eq. intros k Hk. rewrite !lookup_insert_ne by done. by apply Hr.
  - rewrite !lookup_insert_ne by done. apply Hag.
Qed.

(** Running the loop again on the store it left changes nothing. *)
Lemma extendLinks_loop_again st i issues table :
  (extendLinks_loop st i issues table).2 = None ->
  extendLinks_loop (extendLinks_loop st i issues table).1 i issues table =
  ((extendLinks_loop st i issues table).1, None).
Proof.
  intros Hret.
  pose proof (extendLinks_loop_outcome_agree _ _ i issues table
                (extendLinks_loop_agree st i issues table)) as Hout.
  rewrite Hret in Hout.
  destruct (extendLinks_loop (extendLinks_loop st i issues table).1 i issues table)
    as [st2 p] eqn:Hrun.
  simpl in Hout. subst p. f_equal.
  apply map_eq. intros r.
  replace st2 with
    (extendLinks_loop (extendLinks_loop st i issues table).1 i issues table).1
    by by rewrite Hrun.
  rewrite extendLinks_loop_lookup by by rewrite Hrun.
  rewrite (extendLinks_loop_lookup st) by done.
  destruct (last_write r i issues table) as [o|]; [|done].
  destruct (st !! r) as [m|]; simpl; [|done].
  by rewrite insert_insert_eq.
Qed.

Lemma last_write_Some r i issues table o :
  last_write r i issues table = Some o ->
  exists j, issues !! j = Some (VMap r) /\ table !! (i + j) = Some o.
Proof.
  revert i. induction issues as [|v issues IH]; intros i; simpl; [done|].
  destruct (last_write r (S i) issues table) as [o'|] eqn:Hl.
  - intros [= <-]. destruct (IH _ Hl) as (j & Hj & Ho).
    exists (S j). split; [done|]. by replace (i + S j) with (S i + j) by lia.
  - destruct v as [| | | |r'|]; try done. case_decide as Hr; [|done]. subst r'.
    intros Ho. exists 0. split; [done|]. by rewrite Nat.add_0_r.
Qed.

Lemma last_write_None r i issues table j :
  last_write r i issues table = None ->
  i + length issues <= length table ->
  issues !! j <> Some (VMap r).
Proof.
  revert i j. induction issues as [|v issues IH]; intros i j; simpl; [done|].
  destruct (last_write r (S i) issues table) as [o'|] eqn:Hl; [done|].
  intros Hv Hlen. destruct j as [|j]; simpl.
  - intros [= ->]. rewrite decide_True in Hv by done.
    apply lookup_ge_None in Hv. lia.
  - apply (IH (S i)); [done | lia].
Qed.

(** ** ExtendLinksWithBitly *)

Lemma length_omap_eq_all {A B} (f : A -> option B) (l : list A) x :
  length (omap f l) = length l -> x ∈ l -> is_Some (f x).
Proof.
  intros Hlen Hx. destruct (f x) eqn:Hf; [eauto|].
  pose proof (length_omap_lt f l x Hx Hf). lia.
Qed.

(** A table returned for the registry: slot [i] holds, in each field,
    the link the service returned for the identifier at [i], its URL cut. *)
Lemma getBitlyLinks_registry b keys sched table err :
  getBitlyLinks b keys linksToExtend sched = Returned (table, err) ->
  err = None /\ length table = length keys /\
  forall i o, table !! i = Some o ->
    exists k sj ej ss es,
      keys !! i = Some k /\
      Shorten b (long_url jiraLink k) = Some (sj, ej) /\
      Shorten b (long_url stashLink k) = Some (ss, es) /\
      stripped sj = Some (JiraLink o) /\ stripped ss = Some (StashLink o).
Proof.
  intros Hret. apply getBitlyLinks_Returned in Hret as (-> & Hlen & Hall & Hf).
  split; [done|]. split; [done|]. intros i o Ho.
  assert (Hi : i < length keys) by (rewrite <- Hlen; by eapply lookup_lt_Some).
  destruct (lookup_lt_is_Some_2 keys i Hi) as [k Hk].
  assert (Hfield : forall l f, l ∈ linksToExtend -> field_of (name l) = Some f ->
    exists s e, Shorten b (long_url l k) = Some (s, e) /\
                stripped s = Some (get_field f o)).
  { intros l f Hl Hfl.
    assert (Hsp : (i, k, l) ∈ spawned keys linksToExtend) by by apply elem_of_spawned.
    unfold sent in Hall. rewrite <- length_spawned in Hall.
    destruct (length_omap_eq_all _ _ _ Hall Hsp) as [m Hm]. simpl in Hm.
    apply worker_Some in Hm as (s & e & Hs & ->).
    exists s, e. split; [done|].
    specialize (Hf i o f Ho).
    destruct (last_for i f _) as [m'|] eqn:Hlast.
    - apply last_for_Some in Hlast as (Hin & Hi' & Hf').
      apply elem_of_arrivals_sent in Hin.
      rewrite <- (sent_same_link b keys linksToExtend
                    (mkBitlyLink i (name l) s) m' f unambiguous_linksToExtend) in Hf;
        try done.
      apply elem_of_sent. exists k, l, s, e. done.
    - exfalso. apply (proj1 (last_for_None _ _ _) Hlast (mkBitlyLink i (name l) s));
        [|done..].
      apply elem_of_arrivals_sent, elem_of_sent. exists k, l, s, e. done. }
  destruct (Hfield jiraLink FJira) as (sj & ej & Hsj & Hj);
    [apply elem_of_linksToExtend; by left | done |].
  destruct (Hfield stashLink FStash) as (ss & es & Hss & Hs);
    [apply elem_of_linksToExtend; by right | done |].
  by exists k, sj, ej, ss, es.
Qed.

(** On data parseJiraLinks accepts, ExtendLinksWithBitly is the table of
    getBitlyLinks written into the issues: the last step cannot panic. *)
Lemma ExtendLinksWithBitly_parsed b st data sched keys :
  parseJiraLinks st data = inr keys ->
  ExtendLinksWithBitly b st data sched =
  match getBitlyLinks b keys linksToExtend sched with
  | Returned (table, err) =>
      ((extendLinks_loop st 0 (issues_of st data) table).1, Returned (data, err))
  | Panicked p => (st, Panicked p)
  | Blocked => (st, Blocked)
  end
  /\ forall table err,
       getBitlyLinks b keys linksToExtend sched = Returned (table, err) ->
       (extendLinks_loop st 0 (issues_of st data) table).2 = None.
Proof.
  intros Hp. unfold ExtendLinksWithBitly. rewrite Hp.
  apply parseJiraLinks_inr in Hp as (r & issues & -> & Hi & HF).
  assert (Hloop : forall table err,
    getBitlyLinks b keys linksToExtend sched = Returned (table, err) ->
    (extendLinks_loop st 0 (issues_of st (VMap r)) table).2 = None).
  { intros table err Hret. simpl. rewrite Hi.
    apply getBitlyLinks_Returned in Hret as (_ & Hlen & _).
    apply extendLinks_loop_returns.
    - apply Forall_forall. intros v Hv.
      apply list_elem_of_lookup in Hv as [j Hj].
      destruct (Forall2_lookup_l _ _ _ _ _ HF Hj) as (k & _ & Hk).
      by eapply issue_with_key_allocated.
    - rewrite Hlen, (Forall2_length _ _ _ HF). simpl. lia. }
  split; [|done].
  destruct (getBitlyLinks b keys linksToExtend sched) as [[table err]| |] eqn:Hg;
    [|done..].
  specialize (Hloop table err eq_refl). simpl in Hloop. rewrite Hi in Hloop.
  unfold extendLinksWithBitlyUrls. simpl. rewrite Hi. simpl.
  destruct (extendLinks_loop st 0 issues table) as [st' p]. simpl in *. by subst p.
Qed.

(** * The claims *)

(** ** C1: what a worker sends when the call fails *)

(** C1, as stated, fails: no test on the value a worker sends tells a
    failed call from a successful one. The failing service and the
    service that succeeds with the zero link make the worker send the
    same [BitlyLink]. *)
Lemma worker_failure_not_carried :
  ~ exists failed : BitlyLink -> bool,
      forall b i issueName l shortened err m,
        Shorten b (long_url l issueName) = Some (shortened, err) ->
        worker b i issueName l = Some m ->
        (failed m = true <-> err <> None).
Proof.
  intros [failed H].
  pose proof (H Ex.failing 0 "AB-1" jiraLink zeroLink
                (Some "500 Internal Server Error") (mkBitlyLink 0 "jira" zeroLink)
                eq_refl eq_refl) as [_ Hfail].
  pose proof (H Ex.empty_ok 0 "AB-1" jiraLink zeroLink None
                (mkBitlyLink 0 "jira" zeroLink) eq_refl eq_refl) as [Hok _].
  apply Hok; [|done]. by apply Hfail.
Qed.

(** C1 (amended): for every (issue, spec) pair whose call to the
    shortening service returns, failed or not, the worker sends one
    [BitlyLink] with the issue's index, the spec's name and the link the
    service returned; the error of the call is not part of it. *)
Theorem worker_sends_link_only b i issueName l shortened err :
  Shorten b (long_url l issueName) = Some (shortened, err) ->
  worker b i issueName l = Some (mkBitlyLink i (name l) shortened).
Proof.
  intros Hs. apply worker_Some. by exists shortened, err.
Qed.

Lemma worker_sends_link_only_witness :
  Shorten Ex.failing (long_url jiraLink "AB-1") =
    Some (zeroLink, Some "500 Internal Server Error") /\
  worker Ex.failing 0 "AB-1" jiraLink = Some (mkBitlyLink 0 "jira" zeroLink).
Proof.
  split; [reflexivity|].
  apply (worker_sends_link_only Ex.failing 0 "AB-1" jiraLink zeroLink
           (Some "500 Internal Server Error")).
  reflexivity.
Defined.

(** ** C2: a slot holds data of its own issue only *)

(** C2: an iteration of the loop changes no slot but the one at the
    index of the result it received; and in a table getBitlyLinks returns,
    whatever the order of arrival, each link of slot [i] is the zero link
    or was computed by the service from the identifier at position [i]. *)
Theorem slots_not_cross_contaminated b jiraIssueList linkList sched :
  (forall m out out' i,
     merge m out = inr out' -> i <> index m -> out' !! i = out !! i) /\
  (forall table err i o,
     getBitlyLinks b jiraIssueList linkList sched = Returned (table, err) ->
     table !! i = Some o ->
     (JiraLink o = zeroLink \/
      computed_for b jiraIssueList linkList i "jira" (JiraLink o)) /\
     (StashLink o = zeroLink \/
      computed_for b jiraIssueList linkList i "stash" (StashLink o))).
Proof.
  split; [intros m out out' i; apply merge_other|].
  intros table err i o Hret Ho.
  apply getBitlyLinks_Returned in Hret as (_ & _ & _ & Hf).
  assert (Hfield : forall f nm, field_of nm = Some f ->
            get_field f o = zeroLink \/
            computed_for b jiraIssueList linkList i nm (get_field f o)).
  { intros f nm Hnm. specialize (Hf i o f Ho).
    destruct (last_for i f _) as [m|] eqn:Hlast; [|by left]. right.
    apply last_for_Some in Hlast as (Hin & Hi & Hfm).
    apply elem_of_arrivals_sent, sent_panic_of in Hin
      as (k & l & s & e & Hk & Hl & Hs & Hn & Hlk).
    exists k, l, s, e. rewrite <- Hi. split; [done|]. split; [done|].
    split; [|split; [done | by rewrite <- Hlk]].
    apply field_of_Some in Hnm, Hfm.
    destruct Hnm as [[-> ->]|[-> ->]], Hfm as [[? ?]|[? ?]]; congruence. }
  split; [by apply (Hfield FJira) | by apply (Hfield FStash)].
Qed.

Lemma slots_not_cross_contaminated_witness :
  <[1 := mkOutputLinkMap (mkLink "bit.ly/x" []) zeroLink]>
    [zeroOutputLinkMap; zeroOutputLinkMap] !! 0 =
  [zeroOutputLinkMap; zeroOutputLinkMap] !! 0 /\
  exists o, (JiraLink o = zeroLink \/
             computed_for Ex.ok ["AB-1"; "AB-2"] linksToExtend 0 "jira" (JiraLink o)) /\
            (StashLink o = zeroLink \/
             computed_for Ex.ok ["AB-1"; "AB-2"] linksToExtend 0 "stash" (StashLink o)).
Proof.
  split.
  - apply (proj1 (slots_not_cross_contaminated Ex.ok ["AB-1"; "AB-2"] linksToExtend [3; 1])
             (mkBitlyLink 1 "jira" (mkLink "http://bit.ly/x" []))
             [zeroOutputLinkMap; zeroOutputLinkMap]); [reflexivity | simpl; lia].
  - eexists.
    eapply (proj2 (slots_not_cross_contaminated Ex.ok ["AB-1"; "AB-2"] linksToExtend [3; 1])
              _ _ 0); reflexivity.
Defined.

(** ** C4: a name the loop does not route *)

(** C4, as stated, fails: a link named [foo] makes getBitlyLinks panic;
    no error value is returned. *)
Lemma unrecognized_name_panics :
  getBitlyLinks Ex.ok ["AB-1"] [Ex.fooLink] [] =
  Panicked (Explicit "bad bitlyLink name").
Proof. reflexivity. Qed.

(** C4 (amended): when a link's name is neither [jira] nor [stash], and
    every call returns a URL of 7 bytes or more, getBitlyLinks panics with
    "bad bitlyLink name" whatever the order of arrival: it returns neither
    a table nor an error. *)
Theorem bad_name_panics b jiraIssueList linkList sched i issueName l :
  jiraIssueList !! i = Some issueName -> l ∈ linkList ->
  name l <> "jira" -> name l <> "stash" ->
  answers_long b jiraIssueList linkList ->
  getBitlyLinks b jiraIssueList linkList sched =
  Panicked (Explicit "bad bitlyLink name").
Proof.
  intros Hi Hl Hj Hst Hans.
  assert (Hname : field_of (name l) = None) by by apply field_of_None.
  apply getBitlyLinks_panic.
  - apply Forall_forall. intros m Hm.
    apply sent_panic_of in Hm as (k & l' & s & e & Hk & Hl' & Hs & Hn & Hlk).
    destruct (Hans k l') as (s' & e' & Hs' & Hlen);
      [by eapply list_elem_of_lookup_2 | done |].
    assert (s' = s) as -> by congruence.
    unfold panic_of. destruct (field_of (bname m)); [|by right].
    apply stripped_is_Some in Hlen as [s2 Hs2]. rewrite Hlk, Hs2. by left.
  - apply Exists_exists.
    destruct (Hans issueName l) as (s & e & Hs & _);
      [by eapply list_elem_of_lookup_2 | done |].
    exists (mkBitlyLink i (name l) s). split.
    + apply elem_of_sent. by exists issueName, l, s, e.
    + unfold panic_of. simpl. by rewrite Hname.
Qed.

Lemma bad_name_panics_witness :
  getBitlyLinks Ex.ok ["AB-1"; "AB-2"] [jiraLink; Ex.fooLink] [2; 5] =
  Panicked (Explicit "bad bitlyLink name").
Proof.
  apply (bad_name_panics Ex.ok ["AB-1"; "AB-2"] [jiraLink; Ex.fooLink] [2; 5]
           1 "AB-2" Ex.fooLink).
  - reflexivity.
  - apply elem_of_cons. right. apply elem_of_cons. by left.
  - discriminate.
  - discriminate.
  - intros k l _ _. eexists _, _. split; [reflexivity|]. simpl. lia.
Defined.

(** ** C5: the cut of a URL shorter than 7 bytes *)

(** C5: when the names are the routed ones and the call for some pair
    returns a link whose URL is shorter than 7 bytes (the zero link of a
    failed call is one), getBitlyLinks panics with a slice-bounds
    violation, whatever the order of arrival. *)
Theorem short_url_panics b jiraIssueList linkList sched i issueName l shortened err :
  registered linkList ->
  jiraIssueList !! i = Some issueName -> l ∈ linkList ->
  Shorten b (long_url l issueName) = Some (shortened, err) ->
  String.length (URL shortened) < 7 ->
  getBitlyLinks b jiraIssueList linkList sched = Panicked SliceBoundsOutOfRange.
Proof.
  intros Hreg Hi Hl Hs Hlen. apply getBitlyLinks_panic.
  - apply Forall_forall. intros m. by apply registered_panic_of.
  - apply Exists_exists. exists (mkBitlyLink i (name l) shortened). split.
    + apply elem_of_sent. by exists issueName, l, shortened, err.
    + unfold panic_of. simpl. destruct (Hreg l Hl) as [f ->].
      apply stripped_None in Hlen. by rewrite Hlen.
Qed.

Lemma short_url_panics_witness :
  Shorten Ex.failing_once (long_url jiraLink "AB-2") =
    Some (zeroLink, Some "500 Internal Server Error") /\
  getBitlyLinks Ex.failing_once ["AB-1"; "AB-2"] linksToExtend [7; 3] =
  Panicked SliceBoundsOutOfRange.
Proof.
  split; [reflexivity|].
  apply (short_url_panics Ex.failing_once ["AB-1"; "AB-2"] linksToExtend [7; 3]
           1 "AB-2" jiraLink zeroLink (Some "500 Internal Server Error")).
  - exact registered_linksToExtend.
  - reflexivity.
  - apply elem_of_cons. by left.
  - reflexivity.
  - simpl. lia.
Defined.

(** ** C6: the number of work units and of receives *)





(** ** C10: a call that never returns *)

(** C10, as stated, fails: with a service that never answers for one
    pair the call waits forever on the channel. *)
Lemma silent_service_blocks :
  Shorten Ex.silent (long_url jiraLink "AB-2") = None /\
  ExtendLinksWithBitly Ex.silent Ex.st Ex.data [] = (Ex.st, Blocked).
Proof. split; reflexivity. Qed.

(** C10 (amended): there is no timeout. When the call for some pair never
    returns, its goroutine sends nothing and getBitlyLinks does not
    return, whatever the order of arrival: it blocks on the channel, or
    panics on a result that did arrive. *)
Theorem no_answer_never_returns b jiraIssueList linkList sched i issueName l :
  jiraIssueList !! i = Some issueName -> l ∈ linkList ->
  Shorten b (long_url l issueName) = None ->
  getBitlyLinks b jiraIssueList linkList sched = Blocked \/
  exists p, getBitlyLinks b jiraIssueList linkList sched = Panicked p.
Proof.
  intros Hi Hl Hs. rewrite getBitlyLinks_unfold.
  destruct (aggregate _ _ _).1 as [out|p|] eqn:Hagg; [|eauto..].
  exfalso. revert Hagg. apply aggregate_short.
  rewrite arrivals_length. by eapply length_sent_lt.
Qed.

Lemma no_answer_never_returns_witness :
  Shorten Ex.silent (long_url jiraLink "AB-2") = None /\
  (getBitlyLinks Ex.silent ["AB-1"; "AB-2"] linksToExtend [1; 1] = Blocked \/
   exists p, getBitlyLinks Ex.silent ["AB-1"; "AB-2"] linksToExtend [1; 1] = Panicked p).
Proof.
  split; [reflexivity|].
  apply (no_answer_never_returns Ex.silent ["AB-1"; "AB-2"] linksToExtend [1; 1]
           1 "AB-2" jiraLink).
  - reflexivity.
  - apply elem_of_cons. by left.
  - reflexivity.
Defined.

(** ** C3: the records ExtendLinksWithBitly returns *)

(** C3, as stated, fails: when the call for a pair fails with the zero
    link, ExtendLinksWithBitly returns no record at all. *)
Lemma failed_pair_yields_no_records :
  parseJiraLinks Ex.st1 Ex.data = inr ["AB-1"] /\
  ExtendLinksWithBitly Ex.failing Ex.st1 Ex.data [] =
  (Ex.st1, Panicked SliceBoundsOutOfRange).
Proof. split; reflexivity. Qed.

Lemma answers_long_no_panic b keys :
  answers_long b keys linksToExtend ->
  Forall (fun m => panic_of m = None) (sent b keys linksToExtend) /\
  length (sent b keys linksToExtend) = length keys * length linksToExtend.
Proof.
  intros Hans. split.
  - apply Forall_forall. intros m Hm.
    apply sent_panic_of in Hm as (k & l & s & e & Hk & Hl & Hs & Hn & Hlk).
    destruct (Hans k l) as (s' & e' & Hs' & Hlen);
      [by eapply list_elem_of_lookup_2 | done |].
    assert (s' = s) as -> by congruence.
    unfold panic_of. rewrite Hn. destruct (registered_linksToExtend l Hl) as [f ->].
    apply stripped_is_Some in Hlen as [s2 Hs2]. by rewrite Hlk, Hs2.
  - apply length_sent_all. intros k l Hk Hl.
    destruct (Hans k l Hk Hl) as (s & e & -> & _). eauto.
Qed.

(** C3 (amended): on data parseJiraLinks accepts, with N issues, and a
    service whose every call returns a URL of 7 bytes or more,
    ExtendLinksWithBitly returns the data with a nil error, whatever the
    order of arrival; the data still has its N issues, and each issue has
    under [bitlyLink] an [OutputLinkMap] whose two fields, [JiraLink] and
    [StashLink], hold the links the service returned for the issue's key,
    with the first 7 bytes of the URL removed. Whether a call failed is
    not recorded. *)
Theorem annotate_populates b st data sched keys :
  parseJiraLinks st data = inr keys ->
  answers_long b keys linksToExtend ->
  exists st',
    ExtendLinksWithBitly b st data sched = (st', Returned (data, None)) /\
    issues_of st' data = issues_of st data /\
    length (issues_of st data) = length keys /\
    forall i k, keys !! i = Some k ->
      exists r sj ej ss es lj ls,
        issues_of st data !! i = Some (VMap r) /\
        map_index st' r "key" = VString k /\
        Shorten b (long_url jiraLink k) = Some (sj, ej) /\
        Shorten b (long_url stashLink k) = Some (ss, es) /\
        stripped sj = Some lj /\ stripped ss = Some ls /\
        map_index st' r "bitlyLink" = VOutputLinkMap (mkOutputLinkMap lj ls).
Proof.
  intros Hp Hans.
  destruct (answers_long_no_panic b keys Hans) as [Hok Hlen].
  pose proof (getBitlyLinks_no_panic b keys linksToExtend sched Hok) as Hg.
  cbv zeta in Hg. rewrite decide_True in Hg by done. destruct Hg as [table Hg].
  destruct (ExtendLinksWithBitly_parsed b st data sched keys Hp) as [HE Hloop].
  rewrite Hg in HE. specialize (Hloop table None Hg).
  pose proof (extendLinks_loop_agree st 0 (issues_of st data) table) as Hag.
  set (st' := (extendLinks_loop st 0 (issues_of st data) table).1) in *.
  exists st'. split; [done|].
  pose proof Hp as (r0 & issues & -> & Hi & HF)%parseJiraLinks_inr.
  assert (His : issues_of st (VMap r0) = issues) by (simpl; by rewrite Hi).
  split; [|split].
  - simpl. by rewrite (agree_map_index st st').
  - rewrite His. by eapply Forall2_length.
  - intros i k Hk. rewrite His in *.
    destruct (Forall2_lookup_r _ _ _ _ _ HF Hk) as (v & Hv & (r & -> & Hkey)).
    destruct (getBitlyLinks_registry b keys sched table None Hg) as (_ & Htl & Htab).
    assert (Hfit : 0 + length issues <= length table).
    { rewrite Htl, (Forall2_length _ _ _ HF). simpl. lia. }
    destruct (last_write r 0 issues table) as [o|] eqn:Hlw;
      [|by destruct (last_write_None r 0 issues table i Hlw Hfit)].
    pose proof (extendLinks_loop_lookup st 0 issues table r Hloop) as Hst'.
    rewrite Hlw in Hst'.
    apply last_write_Some in Hlw as (j & Hj & Hoj). simpl in Hoj.
    destruct (Htab j o Hoj) as (k' & sj & ej & ss & es & Hk' & Hsj & Hss & Hlj & Hls).
    destruct (Forall2_lookup_l _ _ _ _ _ HF Hj) as (k2 & Hk2 & (r2 & [= <-] & Hkey2)).
    assert (k' = k) as -> by congruence.
    exists r, sj, ej, ss, es, (JiraLink o), (StashLink o).
    split; [done|]. split; [by rewrite (agree_map_index st st')|].
    do 4 (split; [done|]).
    unfold map_index in *. subst st'. rewrite His, Hst'.
    destruct (st !! r) as [m|]; [|done]. simpl.
    rewrite lookup_insert_eq. simpl. by destruct o.
Qed.

Lemma annotate_populates_witness :
  exists st',
    ExtendLinksWithBitly Ex.ok Ex.st Ex.data [2; 0; 1] =
      (st', Returned (Ex.data, None)) /\
    map_index st' 3%positive "bitlyLink" =
      VOutputLinkMap
        (mkOutputLinkMap
           (mkLink "bit.ly/https://jira.cfops.it/browse/AB-2"
              [("long_url", "https://jira.cfops.it/browse/AB-2")])
           (mkLink
              "bit.ly/https://stash.cfops.it/projects/APPS/repos/app/browse?at=refs%2Fheads%2FAB-2"
              [("long_url",
                "https://stash.cfops.it/projects/APPS/repos/app/browse?at=refs%2Fheads%2FAB-2")])).
Proof.
  destruct (annotate_populates Ex.ok Ex.st Ex.data [2; 0; 1] ["AB-1"; "AB-2"])
    as (st' & HE & _ & _ & Hslots).
  - reflexivity.
  - intros k l _ _. eexists _, _. split; [reflexivity|]. simpl. lia.
  - exists st'. split; [exact HE|].
    destruct (Hslots 1 "AB-2" eq_refl)
      as (r & sj & ej & ss & es & lj & ls & Hr & _ & Hsj & Hss & Hlj & Hls & Hbl).
    injection Hr as <-. injection Hsj as <- <-. injection Hss as <- <-.
    injection Hlj as <-. injection Hls as <-. exact Hbl.
Defined.

(** ** C7: the error ExtendLinksWithBitly returns *)

(** C7, as stated, fails: the failure of the one call for AB-2 on jira
    is not carried in the data; it aborts the call, and the results of
    the three other pairs are lost with it. *)
Lemma local_failure_aborts_call :
  Shorten Ex.failing_once (long_url jiraLink "AB-2") =
    Some (zeroLink, Some "500 Internal Server Error") /\
  ExtendLinksWithBitly Ex.failing_once Ex.st Ex.data [2; 0; 1] =
  (Ex.st, Panicked SliceBoundsOutOfRange).
Proof. split; reflexivity. Qed.

Lemma sent_same_links b b' keys links :
  (forall u, fst <$> Shorten b' u = fst <$> Shorten b u) ->
  sent b' keys links = sent b keys links.
Proof.
  intros Hsame. unfold sent. apply list_omap_ext, Forall2_same_length_lookup_2; [done|].
  intros j g g' Hg Hg'. assert (g' = g) as -> by congruence.
  destruct g as [[i k] l]. unfold worker, getBitlyLink. simpl.
  specialize (Hsame (Replace (urlTemplate l) "${issueName}" k)).
  destruct (Shorten b' _) as [[s' e']|], (Shorten b _) as [[s e]|];
    simpl in *; congruence.
Qed.

(** C7 (amended): the error ExtendLinksWithBitly returns is always nil;
    and the error of a call never reaches the result: two services that
    return the same links, whatever their errors, give the same outcome
    and the same data. *)
Theorem error_is_nil_and_call_errors_unused b st data sched :
  (forall st' v e,
     ExtendLinksWithBitly b st data sched = (st', Returned (v, e)) -> e = None) /\
  (forall b',
     (forall u, fst <$> Shorten b' u = fst <$> Shorten b u) ->
     ExtendLinksWithBitly b' st data sched = ExtendLinksWithBitly b st data sched).
Proof.
  split.
  - intros st' v e. destruct (parseJiraLinks st data) as [p|keys] eqn:Hp.
    + unfold ExtendLinksWithBitly. by rewrite Hp.
    + destruct (ExtendLinksWithBitly_parsed b st data sched keys Hp) as [-> _].
      destruct (getBitlyLinks b keys linksToExtend sched) as [[table err]| |] eqn:Hg;
        [|done..].
      apply getBitlyLinks_Returned in Hg as (-> & _). by intros [= _ _ <-].
  - intros b' Hsame. unfold ExtendLinksWithBitly.
    destruct (parseJiraLinks st data) as [p|keys]; [done|].
    unfold getBitlyLinks, getBitlyLinks_received.
    by rewrite (sent_same_links b b').
Qed.

Lemma error_is_nil_and_call_errors_unused_witness :
  (exists st' e,
     ExtendLinksWithBitly Ex.ok Ex.st Ex.data [1] = (st', Returned (Ex.data, e)) /\
     e = None) /\
  ExtendLinksWithBitly Ex.empty_ok Ex.st Ex.data [1] =
  ExtendLinksWithBitly Ex.failing Ex.st Ex.data [1].
Proof.
  split.
  - eexists _, _. split; [reflexivity|].
    eapply (proj1 (error_is_nil_and_call_errors_unused Ex.ok Ex.st Ex.data [1])).
    reflexivity.
  - apply (proj2 (error_is_nil_and_call_errors_unused Ex.failing Ex.st Ex.data [1])
             Ex.empty_ok).
    intros u. reflexivity.
Defined.

(** ** C8: extendLinksWithBitlyUrls *)

(** C8, as stated, fails: the caller's issue map is changed in place,
    and a table longer than the issue list is no failure. *)
Lemma merger_mutates_in_place :
  exists st',
    extendLinksWithBitlyUrls Ex.st1 Ex.data [Ex.slot_ab; zeroOutputLinkMap] =
      (st', Returned Ex.data) /\
    map_index Ex.st1 2%positive "bitlyLink" = VNil /\
    map_index st' 2%positive "bitlyLink" = VOutputLinkMap Ex.slot_ab /\
    length [Ex.slot_ab; zeroOutputLinkMap] <> length (issues_of Ex.st1 Ex.data).
Proof.
  eexists. split; [reflexivity|].
  split; [reflexivity|]. split; [reflexivity|].
  vm_compute. lia.
Qed.

(** C8 (amended): extendLinksWithBitlyUrls writes into the caller's
    maps. Given data whose [issues] are allocated maps at distinct
    locations: when the table has a slot for every issue, it returns the
    data it was given, and in the store it leaves the map of issue [i] is
    the former one with [bitlyLink] set to slot [i], all other maps being
    as before; when the table has fewer slots than there are issues, it
    panics with an index out of range. A longer table is no failure. *)
Theorem merger_writes_slots_in_place st r locs table :
  map_index st r "issues" = VSlice (VMap <$> locs) ->
  Forall (fun l => is_Some (st !! l)) locs ->
  NoDup locs ->
  (length locs <= length table ->
   exists st',
     extendLinksWithBitlyUrls st (VMap r) table = (st', Returned (VMap r)) /\
     (forall i l o, locs !! i = Some l -> table !! i = Some o ->
        st' !! l = <["bitlyLink" := VOutputLinkMap o]> <$> st !! l) /\
     (forall l, l ∉ locs -> st' !! l = st !! l)) /\
  (length table < length locs ->
   exists st',
     extendLinksWithBitlyUrls st (VMap r) table = (st', Panicked IndexOutOfRange)).
Proof.
  intros Hi Hall Hnd.
  assert (HF : Forall (fun v => exists r, v = VMap r /\ is_Some (st !! r))
                 (VMap <$> locs)).
  { apply Forall_fmap. eapply Forall_impl; [done|]. intros l Hl. by exists l. }
  unfold extendLinksWithBitlyUrls. simpl. rewrite Hi. simpl. split.
  - intros Hlen.
    pose proof (extendLinks_loop_returns st 0 (VMap <$> locs) table HF
                  ltac:(rewrite length_fmap; simpl; lia)) as Hret.
    pose proof (extendLinks_loop_lookup st 0 (VMap <$> locs) table) as Hlook.
    destruct (extendLinks_loop st 0 (VMap <$> locs) table) as [st' p].
    simpl in *. subst p. exists st'. split; [done|]. split.
    + intros i l o Hl Ho. rewrite (Hlook l eq_refl).
      destruct (last_write l 0 (VMap <$> locs) table) as [o'|] eqn:Hlw.
      * apply last_write_Some in Hlw as (j & Hj & Hoj). simpl in Hoj.
        rewrite list_lookup_fmap in Hj.
        destruct (locs !! j) as [l'|] eqn:Hl'; simpl in Hj; [|done].
        injection Hj as ->.
        assert (j = i) as -> by by eapply NoDup_lookup.
        congruence.
      * exfalso. eapply (last_write_None l 0 _ table i Hlw).
        -- rewrite length_fmap. simpl. lia.
        -- by rewrite list_lookup_fmap, Hl.
    + intros l Hl. rewrite (Hlook l eq_refl).
      destruct (last_write l 0 (VMap <$> locs) table) as [o'|] eqn:Hlw; [|done].
      apply last_write_Some in Hlw as (j & Hj & _).
      rewrite list_lookup_fmap in Hj.
      destruct (locs !! j) as [l'|] eqn:Hl'; simpl in Hj; [|done].
      injection Hj as ->. exfalso. apply Hl. by eapply list_elem_of_lookup_2.
  - intros Hlen.
    pose proof (extendLinks_loop_short st 0 (VMap <$> locs) table HF
                  ltac:(rewrite length_fmap; simpl; lia)) as Hret.
    destruct (extendLinks_loop st 0 (VMap <$> locs) table) as [st' p].
    simpl in *. subst p. by exists st'.
Qed.

Lemma merger_writes_slots_in_place_witness :
  (exists st',
     extendLinksWithBitlyUrls Ex.st Ex.data [zeroOutputLinkMap; Ex.slot_ab] =
       (st', Returned Ex.data) /\
     st' !! 3%positive =
       <["bitlyLink" := VOutputLinkMap Ex.slot_ab]> <$> Ex.st !! 3%positive /\
     st' !! 1%positive = Ex.st !! 1%positive) /\
  (exists st',
     extendLinksWithBitlyUrls Ex.st Ex.data [Ex.slot_ab] =
       (st', Panicked IndexOutOfRange)).
Proof.
  assert (Hi : map_index Ex.st 1%positive "issues" =
               VSlice (VMap <$> [2%positive; 3%positive])) by reflexivity.
  assert (Hall : Forall (fun l => is_Some (Ex.st !! l)) [2%positive; 3%positive]).
  { repeat constructor; by eexists. }
  assert (Hnd : NoDup [2%positive; 3%positive]).
  { apply NoDup_cons. split; [|apply NoDup_singleton].
    rewrite list_elem_of_singleton. done. }
  split.
  - destruct (proj1 (merger_writes_slots_in_place Ex.st 1%positive
                       [2%positive; 3%positive] [zeroOutputLinkMap; Ex.slot_ab]
                       Hi Hall Hnd))
      as (st' & HE & Hslot & Hother); [simpl; lia|].
    exists st'. split; [exact HE|]. split.
    + by apply (Hslot 1).
    + apply Hother. rewrite !elem_of_cons, elem_of_nil.
      intros [[=]|[[=]|[]]].
  - apply (proj2 (merger_writes_slots_in_place Ex.st 1%positive
                    [2%positive; 3%positive] [Ex.slot_ab] Hi Hall Hnd)).
    simpl. lia.
Defined.

(** ** C9: running ExtendLinksWithBitly again *)

(** C9: with the same service, the outcome of ExtendLinksWithBitly on
    given data is the same for every order of arrival; and a second run,
    on the data as the first run left it and under any order of arrival,
    leaves the data as the first run did and returns what it returned. *)
Theorem rerun_identical b st data sched1 sched2 :
  ExtendLinksWithBitly b st data sched2 = ExtendLinksWithBitly b st data sched1 /\
  ExtendLinksWithBitly b (ExtendLinksWithBitly b st data sched1).1 data sched2 =
  ExtendLinksWithBitly b st data sched1.
Proof.
  destruct (parseJiraLinks st data) as [p|keys] eqn:Hp.
  { unfold ExtendLinksWithBitly. rewrite Hp. simpl. by rewrite Hp. }
  destruct (ExtendLinksWithBitly_parsed b st data sched1 keys Hp) as [HE1 Hloop].
  destruct (ExtendLinksWithBitly_parsed b st data sched2 keys Hp) as [HE2 _].
  rewrite (getBitlyLinks_sched_indep b keys linksToExtend sched2 sched1
             registered_linksToExtend unambiguous_linksToExtend) in HE2.
  split; [congruence|]. rewrite HE1.
  destruct (getBitlyLinks b keys linksToExtend sched1) as [[table err]| |] eqn:Hg;
    simpl; [|congruence..].
  specialize (Hloop table err eq_refl).
  pose proof (extendLinks_loop_agree st 0 (issues_of st data) table) as Hag.
  set (st' := (extendLinks_loop st 0 (issues_of st data) table).1) in *.
  pose proof (parseJiraLinks_agree st st' data keys Hag Hp) as Hp'.
  destruct (ExtendLinksWithBitly_parsed b st' data sched2 keys Hp') as [-> _].
  rewrite (getBitlyLinks_sched_indep b keys linksToExtend sched2 sched1
             registered_linksToExtend unambiguous_linksToExtend), Hg.
  f_equal.
  assert (His : issues_of st' data = issues_of st data).
  { apply parseJiraLinks_inr in Hp as (r & issues & -> & _). simpl.
    by rewrite (agree_map_index st st'). }
  rewrite His. subst st'.
  by rewrite extendLinks_loop_again.
Qed.

(** * Further properties of bitly.go *)

(** ** parseJiraLinks *)

(** X1: when parseJiraLinks returns, it returns one key per element of
    the [issues] slice, in the order of the slice: the key at position
    [i] is the string the map at position [i] holds under [key]. *)
Theorem parseJiraLinks_keys_in_order st data keys :
  parseJiraLinks st data = inr keys ->
  length keys = length (issues_of st data) /\
  forall i k, keys !! i = Some k <->
    exists r, issues_of st data !! i = Some (VMap r) /\
              map_index st r "key" = VString k.
Proof.
  intros (r0 & issues & -> & Hi & HF)%parseJiraLinks_inr.
  simpl. rewrite Hi. split; [symmetry; by eapply Forall2_length|].
  intros i k. split.
  - intros Hk. destruct (Forall2_lookup_r _ _ _ _ _ HF Hk) as (v & Hv & r & -> & Hkey).
    by exists r.
  - intros (r & Hv & Hkey).
    destruct (Forall2_lookup_l _ _ _ _ _ HF Hv) as (k' & Hk' & r' & [= <-] & Hkey').
    congruence.
Qed.

Lemma parseJiraLinks_keys_in_order_witness :
  length ["AB-1"; "AB-2"] = length (issues_of Ex.st Ex.data) /\
  (["AB-1"; "AB-2"] !! 1 = Some "AB-2" <->
   exists r, issues_of Ex.st Ex.data !! 1 = Some (VMap r) /\
             map_index Ex.st r "key" = VString "AB-2").
Proof.
  destruct (parseJiraLinks_keys_in_order Ex.st Ex.data ["AB-1"; "AB-2"] eq_refl)
    as [Hlen Hkeys].
  split; [exact Hlen | exact (Hkeys 1 "AB-2")].
Defined.

Lemma parseJiraLinks_loop_panic st issues acc p :
  parseJiraLinks_loop st issues acc = inl p -> p = TypeAssertion.
Proof.
  revert acc. induction issues as [|v issues IH]; intros acc; simpl; [done|].
  destruct v as [| | | |r|]; simpl; try by intros [= <-].
  destruct (map_index st r "key"); simpl; try by intros [= <-].
  apply IH.
Qed.

Lemma parseJiraLinks_loop_bad st issues acc v :
  v ∈ issues ->
  (forall r k, v = VMap r -> map_index st r "key" <> VString k) ->
  parseJiraLinks_loop st issues acc = inl TypeAssertion.
Proof.
  intros Hin Hbad. revert acc.
  induction issues as [|v' issues IH]; intros acc; [by apply elem_of_nil in Hin|].
  simpl. destruct (parseJiraLinks_loop st (v' :: issues) acc) as [p|keys] eqn:Hrun.
  - simpl in Hrun. rewrite Hrun. f_equal. by eapply (parseJiraLinks_loop_panic st (v' :: issues)).
  - exfalso. apply parseJiraLinks_loop_inv in Hrun as (ks & _ & HF).
    apply list_elem_of_lookup in Hin as [i Hi].
    destruct (Forall2_lookup_l _ _ _ _ _ HF Hi) as (k & _ & r & -> & Hkey).
    by eapply Hbad.
Qed.

Lemma parseJiraLinks_panic_kind st data p :
  parseJiraLinks st data = inl p -> p = TypeAssertion.
Proof.
  unfold parseJiraLinks. destruct data as [| | | |r|]; simpl; try by intros [= <-].
  destruct (map_index st r "issues"); simpl; try by intros [= <-].
  apply parseJiraLinks_loop_panic.
Qed.

(** X2: the only panic of parseJiraLinks is the one of a failed type
    assertion, and one element of [issues] that is not a map with a
    string under [key] makes the whole call panic, wherever it stands in
    the slice: no key of the other issues is returned. *)
Theorem parseJiraLinks_panics st data :
  (forall p, parseJiraLinks st data = inl p -> p = TypeAssertion) /\
  (forall v, v ∈ issues_of st data ->
     (forall r k, v = VMap r -> map_index st r "key" <> VString k) ->
     parseJiraLinks st data = inl TypeAssertion).
Proof.
  split; [intros p; apply parseJiraLinks_panic_kind|].
  unfold parseJiraLinks.
  - intros v. destruct data as [| | | |r|]; simpl; try by intros ?%elem_of_nil.
    destruct (map_index st r "issues"); simpl; try by intros ?%elem_of_nil.
    apply parseJiraLinks_loop_bad.
Qed.

Lemma parseJiraLinks_panics_witness :
  parseJiraLinks
    (<[3%positive := {[ "key" := VBool true ]}]> Ex.st) Ex.data = inl TypeAssertion.
Proof.
  apply (proj2 (parseJiraLinks_panics
                  (<[3%positive := {[ "key" := VBool true ]}]> Ex.st) Ex.data)
           (VMap 3%positive)).
  - apply elem_of_cons. right. apply elem_of_cons. by left.
  - intros r k [= <-]. discriminate.
Defined.

(** ** extendLinksWithBitlyUrls *)

Lemma agree_sym st st' :
  agree_off_bitlyLink st st' -> agree_off_bitlyLink st' st.
Proof.
  intros H r. specialize (H r). destruct (st !! r), (st' !! r); try done.
  intros k Hk. symmetry. by apply H.
Qed.

Lemma parseJiraLinks_agree_eq st st' data :
  agree_off_bitlyLink st st' -> parseJiraLinks st' data = parseJiraLinks st data.
Proof.
  intros Hag. destruct (parseJiraLinks st data) as [p|keys] eqn:Hp.
  - destruct (parseJiraLinks st' data) as [p'|keys'] eqn:Hp'.
    + apply parseJiraLinks_panic_kind in Hp, Hp'. congruence.
    + apply (parseJiraLinks_agree st' st) in Hp'; [congruence | by apply agree_sym].
  - by apply (parseJiraLinks_agree st st').
Qed.

Lemma extendLinksWithBitlyUrls_agree st data table :
  agree_off_bitlyLink st (extendLinksWithBitlyUrls st data table).1.
Proof.
  unfold extendLinksWithBitlyUrls.
  destruct (bindP _ _) as [p|issues]; [apply agree_refl|].
  pose proof (extendLinks_loop_agree st 0 issues table) as H.
  by destruct (extendLinks_loop st 0 issues table) as [st' [p|]].
Qed.

(** X3: whatever extendLinksWithBitlyUrls does, and also when it panics
    half way, it writes [bitlyLink] entries only: the maps that exist are
    the same as before, and every other key of every map holds what it
    held. *)
Theorem extendLinksWithBitlyUrls_frame st data table r k :
  k <> "bitlyLink" ->
  map_index (extendLinksWithBitlyUrls st data table).1 r k = map_index st r k /\
  (is_Some ((extendLinksWithBitlyUrls st data table).1 !! r) <-> is_Some (st !! r)).
Proof.
  intros Hk. pose proof (extendLinksWithBitlyUrls_agree st data table) as Hag.
  split; [by apply agree_map_index|].
  specialize (Hag r).
  destruct (st !! r), (_ !! r); try done; split; intros [? ?]; eauto; done.
Qed.

Lemma extendLinksWithBitlyUrls_frame_witness :
  map_index (extendLinksWithBitlyUrls Ex.st Ex.data [Ex.slot_ab]).1 2%positive "key" =
    map_index Ex.st 2%positive "key" /\
  (is_Some ((extendLinksWithBitlyUrls Ex.st Ex.data [Ex.slot_ab]).1 !! 2%positive) <->
   is_Some (Ex.st !! 2%positive)).
Proof.
  apply (extendLinksWithBitlyUrls_frame Ex.st Ex.data [Ex.slot_ab] 2%positive "key").
  discriminate.
Defined.

(** X4: the keys parseJiraLinks reads are not touched by
    extendLinksWithBitlyUrls: on the data as the merger left it, also
    after a panic, parseJiraLinks gives what it gave before. *)
Theorem parse_after_extend st data table :
  parseJiraLinks (extendLinksWithBitlyUrls st data table).1 data =
  parseJiraLinks st data.
Proof. apply parseJiraLinks_agree_eq, extendLinksWithBitlyUrls_agree. Qed.

Lemma extendLinks_loop_app st i l1 l2 table :
  (extendLinks_loop st i l1 table).2 = None ->
  extendLinks_loop st i (l1 ++ l2) table =
  extendLinks_loop (extendLinks_loop st i l1 table).1 (i + length l1) l2 table.
Proof.
  revert st i. induction l1 as [|v l1 IH]; intros st i; simpl.
  - intros _. by rewrite Nat.add_0_r.
  - destruct (assert_map v) as [p|r]; [done|].
    destruct (table !! i) as [o|]; [|done].
    destruct (map_assign st r "bitlyLink" (VOutputLinkMap o)) as [p|st1]; [done|].
    intros Hret. rewrite (IH _ _ Hret). f_equal. lia.
Qed.

Lemma Forall_allocated_fmap (st : Store) (locs : list loc) :
  Forall (fun l => is_Some (st !! l)) locs ->
  Forall (fun v => exists r, v = VMap r /\ is_Some (st !! r)) (VMap <$> locs).
Proof.
  intros H. apply Forall_fmap. eapply Forall_impl; [done|]. intros l Hl. by exists l.
Qed.

(** X5: the assignments made before a panic stay. When the table has
    fewer slots than there are issues (allocated maps at distinct
    locations), extendLinksWithBitlyUrls panics with an index out of
    range after it has written every slot of the table into the issue at
    its position; the issues beyond the table are as before. *)
Theorem short_table_partial_write st r locs table :
  map_index st r "issues" = VSlice (VMap <$> locs) ->
  Forall (fun l => is_Some (st !! l)) locs ->
  NoDup locs ->
  length table < length locs ->
  exists st',
    extendLinksWithBitlyUrls st (VMap r) table = (st', Panicked IndexOutOfRange) /\
    (forall i l o, locs !! i = Some l -> table !! i = Some o ->
       st' !! l = <["bitlyLink" := VOutputLinkMap o]> <$> st !! l) /\
    (forall i l, locs !! i = Some l -> length table <= i -> st' !! l = st !! l).
Proof.
  intros Hi Hall Hnd Hlen.
  set (n := length table).
  assert (Hsplit : VMap <$> locs =
                   ((VMap <$> take n locs) ++ (VMap <$> drop n locs))%list)
    by by rewrite <- fmap_app, take_drop.
  assert (Hall1 : Forall (fun l => is_Some (st !! l)) (take n locs))
    by by apply Forall_take.
  pose proof (extendLinks_loop_returns st 0 (VMap <$> take n locs) table
                (Forall_allocated_fmap _ _ Hall1)
                ltac:(rewrite length_fmap, length_take; simpl; lia)) as Hret1.
  pose proof (extendLinks_loop_lookup st 0 (VMap <$> take n locs) table) as Hlook.
  pose proof (extendLinks_loop_app st 0 _ (VMap <$> drop n locs) table Hret1) as Happ.
  rewrite <- Hsplit in Happ.
  pose proof (extendLinks_loop_agree st 0 (VMap <$> take n locs) table) as Hag.
  destruct (extendLinks_loop st 0 (VMap <$> take n locs) table) as [st1 p1].
  simpl in *. subst p1.
  rewrite length_fmap, length_take, Nat.min_l in Happ by lia.
  destruct (drop n locs) as [|l0 rest] eqn:Hdrop.
  { apply (f_equal length) in Hdrop. rewrite length_drop in Hdrop. simpl in Hdrop. lia. }
  assert (Hl0 : is_Some (st1 !! l0)).
  { specialize (Hag l0).
    assert (Hl0 : is_Some (st !! l0)).
    { apply (proj1 (Forall_forall _ _) Hall). rewrite <- (take_drop n locs), Hdrop.
      apply elem_of_app. right. left. }
    destruct Hl0 as [m Hm]. rewrite Hm in Hag. by destruct (st1 !! l0). }
  simpl in Happ. rewrite (lookup_ge_None_2 table n) in Happ by (subst n; lia).
  exists st1. split.
  { unfold extendLinksWithBitlyUrls. simpl. rewrite Hi. simpl. by rewrite Happ. }
  split.
  - intros i l o Hl Ho. rewrite (Hlook l eq_refl).
    assert (Hin : i < n) by (by eapply lookup_lt_Some).
    destruct (last_write l 0 (VMap <$> take n locs) table) as [o'|] eqn:Hlw.
    + apply last_write_Some in Hlw as (j & Hj & Hoj). simpl in Hoj.
      rewrite list_lookup_fmap in Hj.
      destruct (take n locs !! j) as [l'|] eqn:Hl'; simpl in Hj; [|done].
      injection Hj as ->. apply lookup_take_Some in Hl' as [Hl' _].
      assert (j = i) as -> by by eapply NoDup_lookup.
      congruence.
    + exfalso. eapply (last_write_None l 0 _ table i Hlw).
      * rewrite length_fmap, length_take. simpl. lia.
      * rewrite list_lookup_fmap, lookup_take_lt by done. by rewrite Hl.
  - intros i l Hl Hge. rewrite (Hlook l eq_refl).
    destruct (last_write l 0 (VMap <$> take n locs) table) as [o'|] eqn:Hlw; [|done].
    apply last_write_Some in Hlw as (j & Hj & Hoj).
    rewrite list_lookup_fmap in Hj.
    destruct (take n locs !! j) as [l'|] eqn:Hl'; simpl in Hj; [|done].
    injection Hj as ->. apply lookup_take_Some in Hl' as [Hl' Hjn].
    assert (j = i) as -> by by eapply NoDup_lookup.
    lia.
Qed.

Lemma short_table_partial_write_witness :
  exists st',
    extendLinksWithBitlyUrls Ex.st Ex.data [Ex.slot_ab] =
      (st', Panicked IndexOutOfRange) /\
    st' !! 2%positive =
      <["bitlyLink" := VOutputLinkMap Ex.slot_ab]> <$> Ex.st !! 2%positive /\
    st' !! 3%positive = Ex.st !! 3%positive.
Proof.
  destruct (short_table_partial_write Ex.st 1%positive [2%positive; 3%positive]
              [Ex.slot_ab]) as (st' & HE & Hw & Hk).
  - reflexivity.
  - repeat constructor; by eexists.
  - apply NoDup_cons. split; [|apply NoDup_singleton].
    rewrite list_elem_of_singleton. done.
  - simpl. lia.
  - exists st'. split; [exact HE|]. split.
    + by apply (Hw 0).
    + apply (Hk 1); [done | simpl; lia].
Defined.

Lemma last_write_Some_last r i issues table o :
  last_write r i issues table = Some o ->
  i + length issues <= length table ->
  exists j, issues !! j = Some (VMap r) /\ table !! (i + j) = Some o /\
            forall j', j < j' -> issues !! j' <> Some (VMap r).
Proof.
  revert i. induction issues as [|v issues IH]; intros i; simpl; [done|].
  destruct (last_write r (S i) issues table) as [o'|] eqn:Hl.
  - intros [= <-] Hlen. destruct (IH _ Hl ltac:(lia)) as (j & Hj & Ho & Hlast).
    exists (S j). split; [done|]. split.
    + by replace (i + S j) with (S i + j) by lia.
    + intros [|j'] Hlt; [lia|]. simpl. apply Hlast. lia.
  - destruct v as [| | | |r'|]; try done. case_decide as Hr; [|done]. subst r'.
    intros Ho Hlen. exists 0. split; [done|]. split; [by rewrite Nat.add_0_r|].
    intros [|j'] Hlt; [lia|]. simpl.
    apply (last_write_None r (S i) issues table j' Hl). lia.
Qed.

(** X6: when the same map stands at several positions of [issues], it
    ends with the slot of the last of them. For issues that are allocated
    maps and a table with a slot for each, the map at position [i] holds
    slot [i] after the call provided it does not occur again at a later
    position. *)
Theorem repeated_issue_last_slot st r locs table i l o :
  map_index st r "issues" = VSlice (VMap <$> locs) ->
  Forall (fun l => is_Some (st !! l)) locs ->
  length locs <= length table ->
  locs !! i = Some l -> table !! i = Some o ->
  (forall j, i < j -> locs !! j <> Some l) ->
  exists st',
    extendLinksWithBitlyUrls st (VMap r) table = (st', Returned (VMap r)) /\
    st' !! l = <["bitlyLink" := VOutputLinkMap o]> <$> st !! l.
Proof.
  intros Hi Hall Hlen Hl Ho Hlast.
  assert (Hfit : 0 + length (VMap <$> locs) <= length table)
    by (rewrite length_fmap; simpl; lia).
  pose proof (extendLinks_loop_returns st 0 (VMap <$> locs) table
                (Forall_allocated_fmap _ _ Hall) Hfit) as Hret.
  pose proof (extendLinks_loop_lookup st 0 (VMap <$> locs) table l) as Hlook.
  unfold extendLinksWithBitlyUrls. simpl. rewrite Hi. simpl.
  destruct (extendLinks_loop st 0 (VMap <$> locs) table) as [st' p].
  simpl in *. subst p. exists st'. split; [done|]. rewrite (Hlook eq_refl).
  destruct (last_write l 0 (VMap <$> locs) table) as [o'|] eqn:Hlw.
  - apply last_write_Some_last in Hlw as (j & Hj & Hoj & Hnone); [|done].
    simpl in Hoj. rewrite list_lookup_fmap in Hj.
    destruct (locs !! j) as [l'|] eqn:Hl'; simpl in Hj; [|done]. injection Hj as ->.
    destruct (Nat.lt_trichotomy i j) as [Hlt|[->|Hgt]].
    + by destruct (Hlast j Hlt).
    + congruence.
    + destruct (Hnone i Hgt). by rewrite list_lookup_fmap, Hl.
  - destruct (last_write_None l 0 _ table i Hlw Hfit). by rewrite list_lookup_fmap, Hl.
Qed.

Lemma repeated_issue_last_slot_witness :
  exists st',
    extendLinksWithBitlyUrls
      (<[1%positive := {[ "issues" := VSlice (VMap <$> [2%positive; 2%positive]) ]}]> Ex.st1)
      Ex.data [zeroOutputLinkMap; Ex.slot_ab] = (st', Returned Ex.data) /\
    st' !! 2%positive =
      <["bitlyLink" := VOutputLinkMap Ex.slot_ab]> <$>
        (<[1%positive := {[ "issues" := VSlice (VMap <$> [2%positive; 2%positive]) ]}]>
           Ex.st1) !! 2%positive.
Proof.
  apply (repeated_issue_last_slot _ 1%positive [2%positive; 2%positive]
           [zeroOutputLinkMap; Ex.slot_ab] 1 2%positive Ex.slot_ab).
  - reflexivity.
  - repeat constructor; by eexists.
  - simpl. lia.
  - reflexivity.
  - reflexivity.
  - intros [|[|j]] Hlt; simpl; first [lia | done].
Defined.

(** ** getBitlyLinks *)

Lemma spawned_nil linkList : spawned [] linkList = [].
Proof.
  unfold spawned. induction linkList as [|l linkList IH]; [done|].
  by rewrite bind_cons, IH.
Qed.

(** With nothing to do getBitlyLinks returns at once, without a
    receive, whatever the service does (also one that never answers):
    the empty table for no identifiers, a table of zero-valued slots for
    no links. *)
Lemma nothing_to_shorten b jiraIssueList linkList sched :
  getBitlyLinks_received b [] linkList sched = (Returned ([], None), 0) /\
  getBitlyLinks_received b jiraIssueList [] sched =
    (Returned (replicate (length jiraIssueList) zeroOutputLinkMap, None), 0).
Proof.
  unfold getBitlyLinks_received. split.
  - done.
  - simpl. by rewrite Nat.mul_0_r.
Qed.

(** X7: getBitlyLinks returns only when every call to the service has
    returned; the table then has exactly one slot per identifier and the
    error is nil. *)
Theorem returned_table_shape b jiraIssueList linkList sched table err :
  getBitlyLinks b jiraIssueList linkList sched = Returned (table, err) ->
  err = None /\ length table = length jiraIssueList /\
  forall i issueName l, jiraIssueList !! i = Some issueName -> l ∈ linkList ->
    is_Some (Shorten b (long_url l issueName)).
Proof.
  intros (-> & Hlen & Hall & _)%getBitlyLinks_Returned.
  split; [done|]. split; [done|]. intros i k l Hk Hl.
  unfold sent in Hall. rewrite <- length_spawned in Hall.
  destruct (length_omap_eq_all _ _ (i, k, l) Hall) as [m Hm];
    [by apply elem_of_spawned|].
  simpl in Hm. apply worker_Some in Hm as (s & e & -> & _). eauto.
Qed.

Lemma returned_table_shape_witness :
  exists table,
    getBitlyLinks Ex.ok ["AB-1"; "AB-2"] linksToExtend [5] = Returned (table, None) /\
    length table = length ["AB-1"; "AB-2"].
Proof.
  eexists. split; [reflexivity|].
  eapply (returned_table_shape Ex.ok ["AB-1"; "AB-2"] linksToExtend [5]).
  reflexivity.
Defined.

(** X8: the last result to arrive wins. In a returned table the field of
    slot [i] that a name is routed to holds the link of the last result
    that arrived for position [i] under that name, with the first 7 bytes
    of its URL removed, and the zero link when no such result arrived. *)
Theorem last_arrival_wins b jiraIssueList linkList sched table err i o f :
  getBitlyLinks b jiraIssueList linkList sched = Returned (table, err) ->
  table !! i = Some o ->
  match last_for i f (arrivals sched (sent b jiraIssueList linkList)) with
  | Some m => stripped (link m) = Some (get_field f o)
  | None => get_field f o = zeroLink
  end.
Proof.
  intros (_ & _ & _ & Hf)%getBitlyLinks_Returned Ho. by apply Hf.
Qed.

Lemma last_arrival_wins_witness :
  (exists table o,
     getBitlyLinks Ex.ok ["K"] Ex.twice [0] = Returned (table, None) /\
     table !! 0 = Some o /\ URL (JiraLink o) = "bit.ly/https://b/K" /\
     match last_for 0 FJira (arrivals [0] (sent Ex.ok ["K"] Ex.twice)) with
     | Some m => stripped (link m) = Some (get_field FJira o)
     | None => get_field FJira o = zeroLink
     end) /\
  (exists table o,
     getBitlyLinks Ex.ok ["K"] Ex.twice [1] = Returned (table, None) /\
     table !! 0 = Some o /\ URL (JiraLink o) = "bit.ly/https://a/K" /\
     match last_for 0 FJira (arrivals [1] (sent Ex.ok ["K"] Ex.twice)) with
     | Some m => stripped (link m) = Some (get_field FJira o)
     | None => get_field FJira o = zeroLink
     end).
Proof.
  split.
  - eexists _, _. split; [reflexivity|]. split; [reflexivity|]. split; [reflexivity|].
    eapply (last_arrival_wins Ex.ok ["K"] Ex.twice [0]); reflexivity.
  - eexists _, _. split; [reflexivity|]. split; [reflexivity|]. split; [reflexivity|].
    eapply (last_arrival_wins Ex.ok ["K"] Ex.twice [1]); reflexivity.
Defined.

Lemma aggregate_Panicked_inv n channel out p :
  Forall (fun m => index m < length out) channel ->
  (aggregate n channel out).1 = Panicked p ->
  exists m, m ∈ channel /\ panic_of m = Some p.
Proof.
  revert n out. induction channel as [|m channel IH]; intros n out Hidx;
    destruct n as [|n]; simpl; try done.
  apply Forall_cons in Hidx as [Hm Hidx].
  pose proof (merge_panic_of m out Hm) as Hmerge.
  destruct (panic_of m) as [q|] eqn:Hq.
  - rewrite Hmerge. simpl. intros [= <-]. exists m. split; [left | done].
  - destruct Hmerge as [out1 Hmerge]. rewrite Hmerge. simpl. intros Hp.
    rewrite <- (merge_length _ _ _ Hmerge) in Hidx.
    destruct (IH n out1 Hidx Hp) as (m' & Hin & Hm'). exists m'. split; [by right | done].
Qed.

(** X9: the panics of getBitlyLinks and their causes. It never indexes
    the table out of range. It panics on the cut of a URL only when some
    call returned a URL shorter than 7 bytes, and with "bad bitlyLink
    name" only when some link's name is neither [jira] nor [stash]. *)
Theorem getBitlyLinks_panic_causes b jiraIssueList linkList sched p :
  getBitlyLinks b jiraIssueList linkList sched = Panicked p ->
  (p = SliceBoundsOutOfRange /\
   exists i issueName l shortened err,
     jiraIssueList !! i = Some issueName /\ l ∈ linkList /\
     Shorten b (long_url l issueName) = Some (shortened, err) /\
     String.length (URL shortened) < 7) \/
  (p = Explicit "bad bitlyLink name" /\
   exists l, l ∈ linkList /\ name l <> "jira" /\ name l <> "stash").
Proof.
  rewrite getBitlyLinks_unfold.
  destruct (aggregate _ _ _).1 as [out|q|] eqn:Hagg; [done| |done].
  intros [= ->].
  apply aggregate_Panicked_inv in Hagg as (m & Hin & Hp);
    [|apply arrivals_index_lt].
  apply elem_of_arrivals_sent, sent_panic_of in Hin
    as (k & l & s & e & Hk & Hl & Hs & Hn & Hlk).
  unfold panic_of in Hp. rewrite Hn, Hlk in Hp.
  destruct (field_of (name l)) as [f|] eqn:Hf.
  - destruct (stripped s) eqn:Hst; [done|]. injection Hp as <-. left.
    split; [done|]. exists (index m), k, l, s, e.
    by apply stripped_None in Hst.
  - injection Hp as <-. right. split; [done|]. exists l.
    by apply field_of_None in Hf.
Qed.

Lemma getBitlyLinks_panic_causes_witness :
  (SliceBoundsOutOfRange = SliceBoundsOutOfRange /\
   exists i issueName l shortened err,
     ["AB-1"; "AB-2"] !! i = Some issueName /\ l ∈ linksToExtend /\
     Shorten Ex.failing_once (long_url l issueName) = Some (shortened, err) /\
     String.length (URL shortened) < 7) \/
  (SliceBoundsOutOfRange = Explicit "bad bitlyLink name" /\
   exists l, l ∈ linksToExtend /\ name l <> "jira" /\ name l <> "stash").
Proof.
  apply (getBitlyLinks_panic_causes Ex.failing_once ["AB-1"; "AB-2"] linksToExtend [2]).
  reflexivity.
Defined.

(** ** ExtendLinksWithBitly *)


(** X11: on data without issues ExtendLinksWithBitly returns the data
    untouched with a nil error, for every service, one that fails or
    never answers included: no call is waited for. *)
Theorem annotate_no_issues b st data sched :
  parseJiraLinks st data = inr [] ->
  ExtendLinksWithBitly b st data sched = (st, Returned (data, None)).
Proof.
  intros Hp.
  destruct (ExtendLinksWithBitly_parsed b st data sched [] Hp) as [-> _].
  apply parseJiraLinks_inr in Hp as (r & issues & -> & Hi & HF).
  apply Forall2_nil_inv_r in HF as ->.
  unfold getBitlyLinks, getBitlyLinks_received. simpl. by rewrite Hi.
Qed.

Lemma annotate_no_issues_witness :
  ExtendLinksWithBitly Ex.silent
    {[ 1%positive := {[ "issues" := VSlice [] ]} ]} Ex.data [] =
  ({[ 1%positive := {[ "issues" := VSlice [] ]} ]}, Returned (Ex.data, None)).
Proof.
  apply (annotate_no_issues Ex.silent
           {[ 1%positive := {[ "issues" := VSlice [] ]} ]} Ex.data []).
  reflexivity.
Defined.

(** ** The long URL and the cut of the short one *)

Lemma prefix_empty s : String.prefix EmptyString s = true.
Proof. by destruct s. Qed.

Lemma string_app_cons c s t : (String c s ++ t)%string = String c (s ++ t).
Proof. reflexivity. Qed.

Lemma string_app_nil_r s : (s ++ EmptyString)%string = s.
Proof. induction s as [|c s IH]; [done|]. by rewrite string_app_cons, IH. Qed.

Lemma Replace_from_no_dollar pre rest new :
  (forall c, In c (String.list_ascii_of_string pre) -> String c EmptyString <> "$") ->
  Replace_from 0 (pre ++ rest)%string "${issueName}" new =
  (pre ++ Replace_from 0 rest "${issueName}" new)%string.
Proof.
  induction pre as [|c pre IH]; intros Hno; [done|].
  rewrite !string_app_cons. cbn [Replace_from String.prefix].
  destruct (Ascii.ascii_dec _ c) as [<-|_].
  - by destruct (Hno _ (or_introl eq_refl)).
  - rewrite IH; [done|]. intros c' Hc'. apply Hno. by right.
Qed.

Lemma Replace_from_placeholder rest new :
  Replace_from 0 ("${issueName}" ++ rest)%string "${issueName}" new =
  (new ++ Replace_from 0 rest "${issueName}" new)%string.
Proof.
  cbn -[String.append]. simpl. by rewrite prefix_empty.
Qed.

(** X12: the long URL of a template that holds the placeholder once.
    For a template [pre ++ "${issueName}" ++ post] with no [$] in [pre]
    and [post], the URL sent to the service is [pre ++ issueName ++ post],
    whatever the identifier is (it is not scanned again); so the two
    links of ExtendLinksWithBitly ask for the browse URL of the issue and
    for the branch of that name. *)
Theorem long_url_substitutes nm u pre post issueName :
  (forall c, In c (String.list_ascii_of_string pre) -> String c EmptyString <> "$") ->
  (forall c, In c (String.list_ascii_of_string post) -> String c EmptyString <> "$") ->
  long_url (mkInputLinkMap nm u (pre ++ "${issueName}" ++ post)%string) issueName =
  (pre ++ issueName ++ post)%string.
Proof.
  intros Hpre Hpost. unfold long_url, Replace. simpl.
  rewrite Replace_from_no_dollar by done.
  rewrite Replace_from_placeholder.
  rewrite <- (string_app_nil_r post) at 1.
  rewrite Replace_from_no_dollar by done. simpl.
  by rewrite string_app_nil_r.
Qed.

Lemma long_url_substitutes_witness :
  long_url jiraLink "AB-1" = "https://jira.cfops.it/browse/AB-1" /\
  long_url stashLink "AB-1" =
    "https://stash.cfops.it/projects/APPS/repos/app/browse?at=refs%2Fheads%2FAB-1".
Proof.
  split.
  - apply (long_url_substitutes "jira" EmptyString "https://jira.cfops.it/browse/"
             EmptyString "AB-1").
    + intros c Hc. simpl in Hc. intuition (subst; discriminate).
    + intros c [].
  - apply (long_url_substitutes "stash" EmptyString
             "https://stash.cfops.it/projects/APPS/repos/app/browse?at=refs%2Fheads%2F"
             EmptyString "AB-1").
    + intros c Hc. simpl in Hc. intuition (subst; discriminate).
    + intros c [].
Defined.

Lemma slice_from_app p s : slice_from (p ++ s)%string (String.length p) = Some s.
Proof.
  induction p as [|c p IH]; [done|]. by rewrite string_app_cons.
Qed.

(** X13: the cut of the short URL removes its first 7 bytes, whatever
    they are, and keeps the other fields of the link: a URL
    [http://host/x] is stored as [host/x], and a URL [https://host/x] as
    [/host/x]. The slot's other field is not changed. *)
Theorem merge_cuts_seven_bytes m out current f p rest :
  out !! index m = Some current ->
  field_of (bname m) = Some f ->
  URL (link m) = (p ++ rest)%string -> String.length p = 7 ->
  merge m out =
  inr (<[index m := set_field f current (mkLink rest (fields (link m)))]> out).
Proof.
  intros Hcur Hf Hurl Hp. rewrite merge_unfold, Hcur, Hf.
  unfold stripped. by rewrite Hurl, <- Hp, slice_from_app.
Qed.

Lemma merge_cuts_seven_bytes_witness :
  merge (mkBitlyLink 0 "stash" (mkLink "https://bit.ly/x" [("hash", "x")]))
    [Ex.slot_ab] =
  inr [mkOutputLinkMap (mkLink "bit.ly/a" []) (mkLink "/bit.ly/x" [("hash", "x")])].
Proof.
  apply (merge_cuts_seven_bytes
           (mkBitlyLink 0 "stash" (mkLink "https://bit.ly/x" [("hash", "x")]))
           [Ex.slot_ab] Ex.slot_ab FStash "https:/" "/bit.ly/x"); reflexivity.
Defined.

(** * main.go *)

(** ** The command word *)

(** Every name the table maps to is itself an entry of the table, mapped
    to itself, and is not empty. *)
Lemma jiraCommands_closed k alias :
  jiraCommands !! k = Some alias ->
  jiraCommands !! alias = Some alias /\ alias <> EmptyString.
Proof.
  intros H. apply elem_of_list_to_map_2 in H.
  repeat (apply elem_of_cons in H as [[= -> ->]|H];
          [split; [vm_compute; reflexivity | discriminate]|]).
  by apply elem_of_nil in H.
Qed.

Opaque jiraCommands.

Lemma shiftCommand_named c args :
  c <> EmptyString -> shiftCommand (c, args) = (c, args).
Proof.
  intros Hne%String.eqb_neq. unfold shiftCommand. cbn [fst snd].
  destruct args; [done|]. by rewrite Hne.
Qed.

Lemma defaultCommand_unset opts ca :
  (forall v, opts !! "command" <> Some (OString v)) ->
  defaultCommand opts ca =
  if negb (bool_decide (is_Some (jiraCommands !! ca.1))) || String.eqb ca.1 EmptyString
  then ("view", if negb (String.eqb ca.1 EmptyString) then ca.1 :: ca.2 else ca.2)
  else ca.
Proof.
  intros Hopt. unfold defaultCommand.
  destruct (opts !! "command") as [[]|] eqn:Ho; try done. by destruct (Hopt s).
Qed.

Lemma defaultCommand_named opts c args :
  (forall v, opts !! "command" <> Some (OString v)) ->
  is_Some (jiraCommands !! c) -> c <> EmptyString ->
  defaultCommand opts (c, args) = (c, args).
Proof.
  intros Hopt Hc Hne%String.eqb_neq. rewrite defaultCommand_unset by done.
  cbn [fst snd]. by rewrite bool_decide_eq_true_2, Hne.
Qed.

(** X14: a word of the command table in first position is the command,
    under its canonical name, and is taken out of the arguments; failing
    that, one in second position is the command and the first word stays
    first ([jira DUPLICATE dups ISSUE]). No command set in the options is
    assumed. *)
Theorem command_word_found opts a0 a1 rest alias :
  (forall v, opts !! "command" <> Some (OString v)) ->
  (jiraCommands !! a0 = Some alias ->
   resolveCommand opts (a0 :: rest) = (alias, rest)) /\
  (jiraCommands !! a0 = None -> jiraCommands !! a1 = Some alias ->
   resolveCommand opts (a0 :: a1 :: rest) = (alias, a0 :: rest)).
Proof.
  intros Hopt. split.
  - intros Ha0. destruct (jiraCommands_closed _ _ Ha0) as [Hal Hne].
    unfold resolveCommand, lookupCommand. rewrite Ha0.
    rewrite shiftCommand_named by done. apply defaultCommand_named; eauto.
  - intros Ha0 Ha1. destruct (jiraCommands_closed _ _ Ha1) as [Hal Hne].
    unfold resolveCommand, lookupCommand. rewrite Ha0, Ha1.
    rewrite shiftCommand_named by done. apply defaultCommand_named; eauto.
Qed.

Lemma command_word_found_witness :
  resolveCommand ∅ ["ls"; "-q"] = ("list", ["-q"]) /\
  resolveCommand ∅ ["AB-1"; "dups"; "AB-2"] = ("dups", ["AB-1"; "AB-2"]).
Proof.
  split.
  - apply (proj1 (command_word_found ∅ "ls" "" ["-q"] "list"
                    ltac:(intros v; by rewrite lookup_empty))).
    vm_compute. reflexivity.
  - apply (proj2 (command_word_found ∅ "AB-1" "dups" ["AB-2"] "dups"
                    ltac:(intros v; by rewrite lookup_empty)));
      vm_compute; reflexivity.
Defined.

(** X15: [jira ISSUE] is [jira view ISSUE]. When neither of the first
    two words is in the command table, the first is not empty and no
    command is set in the options, the command is [view] and the
    arguments are all the words, unchanged. *)
Theorem implicit_view opts a0 rest :
  (forall v, opts !! "command" <> Some (OString v)) ->
  a0 <> EmptyString ->
  jiraCommands !! a0 = None ->
  (forall a1, rest !! 0 = Some a1 -> jiraCommands !! a1 = None) ->
  resolveCommand opts (a0 :: rest) = ("view", a0 :: rest).
Proof.
  intros Hopt Hne Ha0 Ha1.
  assert (Hl : lookupCommand (a0 :: rest) = (EmptyString, a0 :: rest)).
  { unfold lookupCommand. rewrite Ha0. destruct rest as [|a1 rest']; [done|].
    by rewrite (Ha1 a1 eq_refl). }
  unfold resolveCommand. rewrite Hl. unfold shiftCommand. cbn [fst snd String.eqb].
  rewrite defaultCommand_unset by done. cbn [fst snd].
  apply String.eqb_neq in Hne. rewrite Ha0, Hne.
  by rewrite bool_decide_eq_false_2 by (by intros [? ?]).
Qed.

Lemma implicit_view_witness :
  resolveCommand ∅ ["AB-1"; "-b"] = ("view", ["AB-1"; "-b"]).
Proof.
  apply (implicit_view ∅ "AB-1" ["-b"]).
  - intros v. by rewrite lookup_empty.
  - discriminate.
  - vm_compute. reflexivity.
  - intros a1 [= <-]. vm_compute. reflexivity.
Defined.

(** Unless the options set a command, the command [main] dispatches on
    is always a canonical name of the command table, whatever the
    arguments. *)
Lemma resolveCommand_canonical opts args :
  (forall v, opts !! "command" <> Some (OString v)) ->
  jiraCommands !! (resolveCommand opts args).1 = Some (resolveCommand opts args).1.
Proof.
  intros Hopt.
  assert (Hview : jiraCommands !! "view" = Some "view") by (vm_compute; reflexivity).
  assert (Hno : forall c a, ~ is_Some (jiraCommands !! c) ->
            jiraCommands !! (defaultCommand opts (c, a)).1 =
            Some (defaultCommand opts (c, a)).1).
  { intros c a Hc. rewrite defaultCommand_unset by done. cbn [fst snd].
    by rewrite bool_decide_eq_false_2 by done. }
  assert (Hyes : forall c a, jiraCommands !! c = Some c -> c <> EmptyString ->
            jiraCommands !! (defaultCommand opts (c, a)).1 =
            Some (defaultCommand opts (c, a)).1).
  { intros c a Hc Hne. rewrite defaultCommand_named by eauto. done. }
  assert (Hempty : ~ is_Some (jiraCommands !! EmptyString)).
  { intros [alias Ha].
    assert (H : jiraCommands !! EmptyString = None) by (vm_compute; reflexivity).
    congruence. }
  unfold resolveCommand, lookupCommand.
  destruct args as [|a0 rest]; [by apply Hno|].
  destruct (jiraCommands !! a0) as [alias|] eqn:Ha0.
  { destruct (jiraCommands_closed _ _ Ha0) as [Hal Hne].
    rewrite shiftCommand_named by done. by apply Hyes. }
  assert (Ha0' : ~ is_Some (jiraCommands !! a0)) by (rewrite Ha0; by intros [? ?]).
  destruct rest as [|a1 rest']; [by apply Hno|].
  destruct (jiraCommands !! a1) as [alias|] eqn:Ha1.
  { destruct (jiraCommands_closed _ _ Ha1) as [Hal Hne].
    rewrite shiftCommand_named by done. by apply Hyes. }
  by apply Hno.
Qed.

(** X16: a command set in the options replaces the one typed, and one
    word has been taken from the arguments all the same: with a first
    word that is no command name, [jira ISSUE] loses [ISSUE]. *)
Theorem configured_command_overrides opts value args :
  opts !! "command" = Some (OString value) ->
  (resolveCommand opts args).1 = value /\
  length (resolveCommand opts args).2 = length args - 1 /\
  (forall a0 rest, args = a0 :: rest -> jiraCommands !! a0 = None ->
     (forall a1, rest !! 0 = Some a1 -> jiraCommands !! a1 = None) ->
     (resolveCommand opts args).2 = rest).
Proof.
  intros Hopt. unfold resolveCommand, defaultCommand. rewrite Hopt. cbn [fst snd].
  split; [done|]. split.
  - unfold lookupCommand.
    destruct args as [|a0 rest]; [done|].
    destruct (jiraCommands !! a0) as [alias|] eqn:Ha0.
    + destruct (jiraCommands_closed _ _ Ha0) as [_ Hne].
      rewrite shiftCommand_named by done. simpl. lia.
    + destruct rest as [|a1 rest']; [done|].
      destruct (jiraCommands !! a1) as [alias|] eqn:Ha1; [|simpl; lia].
      destruct (jiraCommands_closed _ _ Ha1) as [_ Hne].
      rewrite shiftCommand_named by done. simpl. lia.
  - intros a0 rest -> Ha0 Ha1. unfold lookupCommand. rewrite Ha0.
    destruct rest as [|a1 rest']; [done|]. by rewrite (Ha1 a1 eq_refl).
Qed.

Lemma configured_command_overrides_witness :
  (resolveCommand {[ "command" := OString "list" ]} ["AB-1"; "-b"]).1 = "list" /\
  (resolveCommand {[ "command" := OString "list" ]} ["AB-1"; "-b"]).2 = ["-b"].
Proof.
  destruct (configured_command_overrides {[ "command" := OString "list" ]} "list"
              ["AB-1"; "-b"]) as (Hc & _ & Hargs); [reflexivity|].
  split; [exact Hc|].
  apply (Hargs "AB-1" ["-b"] eq_refl); [vm_compute; reflexivity|].
  intros a1 [= <-]. vm_compute. reflexivity.
Defined.

(** ** setEditing *)

(** X17: after [setEditing] the option [edit] is a bool and no other
    option has changed. With default [true] it is the negation of
    [--noedit], whatever [edit] was; with default [false] a bool given
    for [edit] is kept and anything else becomes [false]. Calling it
    twice is the same as calling it once. *)
Theorem setEditing_sets_edit dflt opts :
  (setEditing dflt opts !! "edit" =
   Some (OBool
     (if dflt
      then negb (bool_decide (opts !! "noedit" = Some (OBool true)))
      else bool_decide (opts !! "edit" = Some (OBool true))))) /\
  (forall k, k <> "edit" -> setEditing dflt opts !! k = opts !! k) /\
  setEditing dflt (setEditing dflt opts) = setEditing dflt opts.
Proof.
  unfold setEditing. destruct dflt.
  - assert (Hno : forall v, <["edit" := v]> opts !! "noedit" = opts !! "noedit")
      by (intros v; by rewrite lookup_insert_ne).
    destruct (opts !! "noedit") as [[[]| | |]|] eqn:Hn;
      (split; [rewrite lookup_insert_eq; by case_bool_decide|]);
      (split; [intros k Hk; by rewrite lookup_insert_ne|]);
      rewrite Hno, ?Hn; by rewrite insert_insert_eq.
  - destruct (opts !! "edit") as [[[]| | |]|] eqn:He;
      (split; [rewrite ?lookup_insert_eq, ?He; by case_bool_decide|]);
      (split; [intros k Hk; by rewrite ?lookup_insert_ne|]);
      by rewrite ?lookup_insert_eq, ?He.
Qed.

Lemma setEditing_sets_edit_witness :
  setEditing true {[ "noedit" := OBool true; "edit" := OBool true ]} !! "edit" =
    Some (OBool false) /\
  setEditing true {[ "noedit" := OBool true; "edit" := OBool true ]} !! "noedit" =
    Some (OBool true).
Proof.
  destruct (setEditing_sets_edit true
              {[ "noedit" := OBool true; "edit" := OBool true ]}) as (He & Hk & _).
  split; [exact He|]. rewrite (Hk "noedit"); [reflexivity | discriminate].
Defined.

(** ** loadConfigs *)

Lemma mergeMissing_union (tmp opts : Opts) : mergeMissing tmp opts = opts ∪ tmp.
Proof.
  unfold mergeMissing.
  apply (map_fold_weak_ind (fun r (m : Opts) => r = opts ∪ m)).
  - by rewrite (right_id_L ∅ (∪)).
  - intros k v m r Hm ->.
    destruct ((opts ∪ m) !! k) as [w|] eqn:Hk.
    + apply lookup_union_Some_raw in Hk as [Hk|[_ Hk]]; [|congruence].
      apply map_eq. intros j. rewrite !lookup_union.
      destruct (decide (k = j)) as [<-|Hne].
      * by rewrite Hk, Hm, lookup_insert_eq.
      * by rewrite lookup_insert_ne.
    + apply lookup_union_None in Hk as [Hk _]. by rewrite insert_union_r.
Qed.

(** X18: merging a configuration into the options fills in the options
    that are missing and changes none that is set; the result does not
    depend on the order in which the map is ranged over. *)
Theorem mergeMissing_lookup (tmp opts : Opts) k :
  mergeMissing tmp opts !! k =
  match opts !! k with
  | Some v => Some v
  | None => tmp !! k
  end.
Proof.
  rewrite mergeMissing_union, lookup_union.
  by destruct (opts !! k), (tmp !! k).
Qed.

Lemma loadConfigs_subseteq files (opts opts' : Opts) :
  loadConfigs files opts = Some opts' -> opts ⊆ opts'.
Proof.
  revert opts. induction files as [|f files IH]; intros opts; simpl.
  - by intros [= ->].
  - destruct f as [|tmp|run].
    + apply IH.
    + intros H%IH. etrans; [|done]. rewrite mergeMissing_union.
      apply map_union_subseteq_l.
    + destruct (run opts) as [tmp|]; [|done].
      intros H%IH. etrans; [|done]. rewrite mergeMissing_union.
      apply map_union_subseteq_l.
Qed.

(** X19: the command line wins. Whatever the configuration files hold
    or print, an option that is set when loadConfigs starts has the same
    value when it returns. *)
Theorem loadConfigs_keeps_options files (opts opts' : Opts) k v :
  loadConfigs files opts = Some opts' ->
  opts !! k = Some v -> opts' !! k = Some v.
Proof.
  intros H%loadConfigs_subseteq Hk. by eapply lookup_weaken.
Qed.

Lemma loadConfigs_keeps_options_witness :
  exists opts',
    loadConfigs [PlainFile {[ "project" := OString "B"; "user" := OString "u" ]}]
      {[ "project" := OString "A" ]} = Some opts' /\
    opts' !! "project" = Some (OString "A").
Proof.
  eexists. split; [reflexivity|].
  eapply (loadConfigs_keeps_options
            [PlainFile {[ "project" := OString "B"; "user" := OString "u" ]}]
            {[ "project" := OString "A" ]}); reflexivity.
Defined.

(** X20: among configuration files that are not executable, a file
    earlier in the loop wins over a later one: loadConfigs returns the
    options it was given, completed first from the first file, then from
    the second, and so on; it never exits. *)
Theorem loadConfigs_plain_precedence (tmps : list Opts) (opts : Opts) :
  loadConfigs (PlainFile <$> tmps) opts = Some (opts ∪ ⋃ tmps).
Proof.
  revert opts. induction tmps as [|tmp tmps IH]; intros opts; simpl.
  - by rewrite (right_id_L ∅ (∪)).
  - rewrite IH, mergeMissing_union. by rewrite (assoc_L (∪)).
Qed.

(** X21: an executable configuration file that fails makes loadConfigs
    exit, after the files before it have been merged and whatever the
    files after it hold. *)
Theorem loadConfigs_exec_failure files1 run files2 (opts opts1 : Opts) :
  loadConfigs files1 opts = Some opts1 ->
  run opts1 = None ->
  loadConfigs (files1 ++ ExecFile run :: files2) opts = None.
Proof.
  revert opts. induction files1 as [|f files1 IH]; intros opts; simpl.
  - intros [= ->] Hrun. by rewrite Hrun.
  - destruct f as [|tmp|run1]; [apply IH | apply IH |].
    destruct (run1 opts); [apply IH | done].
Qed.

Lemma loadConfigs_exec_failure_witness :
  loadConfigs
    ([PlainFile {[ "user" := OString "u" ]}] ++
     ExecFile (fun o => if decide (is_Some (o !! "user")) then None else Some ∅) ::
     [PlainFile ∅]) ∅ = None.
Proof.
  apply (loadConfigs_exec_failure [PlainFile {[ "user" := OString "u" ]}]
           (fun o => if decide (is_Some (o !! "user")) then None else Some ∅)
           [PlainFile ∅] ∅ {[ "user" := OString "u" ]}); reflexivity.
Defined.


(** ** The switch on the command *)

Ltac dispatch_facts :=
  repeat match goal with
  | H : (_ <? _)%nat = false |- _ => apply Nat.ltb_ge in H
  | H : (_ <? _)%nat = true |- _ => apply Nat.ltb_lt in H
  | H : @lookup nat string (list string) _ _ _ = None |- _ => apply lookup_ge_None in H
  | H : @lookup nat string (list string) _ _ _ = Some _ |- _ => apply lookup_lt_Some in H
  end.

Ltac dispatch_case :=
  try unfold dispatch; simpl; unfold transitionCase, oneArgCase; unfold requireArgs, arg, optString;
  cbv zeta; repeat case_match; try done; intros; simplify_eq; dispatch_facts; try lia.



Transparent jiraCommands.

Lemma dispatch_unknown_iff opts command args :
  jiraCommands !! command = Some command ->
  dispatch opts command args = UnknownCommand <-> command = "addworklog".
Proof.
  intros H. apply elem_of_list_to_map_2 in H.
  repeat (apply elem_of_cons in H as [Heq|H];
          [simplify_eq; try (split; [dispatch_case | by intros [=]])|]).
  by apply elem_of_nil in H.
Qed.

Opaque jiraCommands.

(** X23: short of a command set in the options, the [default] case of
    the switch ("Unknown command") is reached for one command only:
    [addworklog], which is in the command table and has no case. Every
    other command the command line can give is handled. *)
Theorem unknown_only_addworklog opts opts' args :
  (forall v, opts !! "command" <> Some (OString v)) ->
  dispatch opts' (resolveCommand opts args).1 (resolveCommand opts args).2 =
    UnknownCommand <->
  (resolveCommand opts args).1 = "addworklog".
Proof.
  intros Hopt. apply dispatch_unknown_iff. by apply resolveCommand_canonical.
Qed.

Lemma unknown_only_addworklog_witness :
  dispatch {[ "endpoint" := OString "https://jira" ]}
    (resolveCommand ∅ ["AB-1"; "addworklog"]).1
    (resolveCommand ∅ ["AB-1"; "addworklog"]).2 = UnknownCommand.
Proof.
  apply (unknown_only_addworklog ∅ {[ "endpoint" := OString "https://jira" ]}
           ["AB-1"; "addworklog"]).
  - intros v. by rewrite lookup_empty.
  - vm_compute. reflexivity.
Defined.

(** ** The cases that call the client more than once *)



(** X25: the exit status of [jira dups] is decided by [CmdDups] alone.
    Once [CmdDups] has succeeded, the errors of [ValidTransitions] and of
    the transitions are assigned to the [err] declared inside the block,
    never to the [err] that [main] tests: the process exits with status
    0 also when closing the duplicate failed. *)
Theorem dups_exit_status {W T : Type}
    (cmdDups : W -> Opts -> string -> string -> W * option CmdError)
    (validTransitions : W -> Opts -> string -> W * (T * option CmdError))
    (find : T -> string -> bool)
    (cmdTransition : W -> Opts -> string -> string -> W * option CmdError)
    opts a0 a1 w :
  (dupsCase cmdDups validTransitions find cmdTransition opts a0 a1 w).2 =
  (cmdDups w opts a0 a1).2.
Proof.
  unfold dupsCase. destruct (cmdDups w opts a0 a1) as [w1 [e|]]; [done|].
  destruct (validTransitions _ _ _) as [w2 [trans [e|]]]; [done|].
  repeat case_match; done.
Qed.
